(** * dotselect: a model of [src/dotselect/core.py]

    The module compiles a "dotpath" string into a list of segments
    ([_parse_path], with [_coerce_value] for predicate literals) and walks a
    tree of dicts, lists and scalars with it ([_traverse]); [Path],
    [find_all] and [find_first] wire the two together.

    Modelling conventions.
    - A Python [str] is a [string] whose characters are read as the code
      points U+0000..U+00FF.  The character classes of the builtins
      ([str.isdigit], [str.lower], the regex class [\w], the blanks skipped
      by [int] and [float]) are written out for exactly this range.
    - Python integers are [Z]; Python floats are binary64 values given as
      [spec_float].
    - A dict is the list of its entries in iteration (insertion) order; a
      Python dict never repeats a key.
    - A generator is the list of the values it yields together with the
      exception that ends it, if any.  Generators over finite trees are
      finite, so nothing is lost; interpreter resource limits (recursion
      depth, the cap on the length of integer literals) are not modelled. *)

From Stdlib Require Import ZArith NArith List String Ascii Bool Lia SpecFloat.
Import ListNotations.
Local Open Scope string_scope.

(* ================================================================= *)
(** ** Exceptions and results *)

Inductive exn : Type :=
| ValueError
| KeyError
| IndexError
| StopIteration.

Inductive result (A : Type) : Type :=
| Ok (a : A)
| Raise (e : exn).

Arguments Ok {A} a.
Arguments Raise {A} e.

Definition bind {A B : Type} (r : result A) (k : A -> result B) : result B :=
  match r with
  | Ok a => k a
  | Raise e => Raise e
  end.

Notation "x <- r ;; k" := (bind r (fun x => k))
  (at level 61, r at next level, right associativity).

(* ================================================================= *)
(** ** The [str] builtins the program uses *)

Module PyStr.

Definition code (c : ascii) : N := N_of_ascii c.

Definition between (lo hi : N) (c : ascii) : bool :=
  ((lo <=? code c) && (code c <=? hi))%N.

Definition is_code (n : N) (c : ascii) : bool := (code c =? n)%N.

(** The double and the single quote character. *)
Definition dquote : ascii := "034"%char.
Definition squote : ascii := "039"%char.

(** Unicode category Nd: below U+0100 only [0]..[9]. *)
Definition isdecimal_char (c : ascii) : bool := between 48 57 c.

(** [str.isdigit] on one character also accepts the superscripts
    U+00B2, U+00B3 and U+00B9, which are digits without being decimals. *)
Definition isdigit_char (c : ascii) : bool :=
  isdecimal_char c || is_code 178 c || is_code 179 c || is_code 185 c.

(** Adds the vulgar fractions U+00BC..U+00BE. *)
Definition isnumeric_char (c : ascii) : bool :=
  isdigit_char c || between 188 190 c.

(** Letters: A-Z, a-z, U+00AA, U+00B5, U+00BA, U+00C0..U+00FF without the
    two operators U+00D7 and U+00F7. *)
Definition isalpha_char (c : ascii) : bool :=
  between 65 90 c || between 97 122 c
  || is_code 170 c || is_code 181 c || is_code 186 c
  || between 192 214 c || between 216 246 c || between 248 255 c.

Definition isalnum_char (c : ascii) : bool :=
  isalpha_char c || isnumeric_char c.

(** The uppercase letters of the range all have their lowercase 32 above. *)
Definition isupper_char (c : ascii) : bool :=
  between 65 90 c || between 192 214 c || between 216 222 c.

Definition lower_char (c : ascii) : ascii :=
  if isupper_char c then ascii_of_N (code c + 32) else c.

(** [s.lower()] *)
Fixpoint lower (s : string) : string :=
  match s with
  | EmptyString => EmptyString
  | String c s' => String (lower_char c) (lower s')
  end.

Fixpoint all_chars (p : ascii -> bool) (s : string) : bool :=
  match s with
  | EmptyString => true
  | String c s' => p c && all_chars p s'
  end.

(** [s.isdigit()]: at least one character and every character a digit. *)
Definition isdigit (s : string) : bool :=
  match s with
  | EmptyString => false
  | String _ _ => all_chars isdigit_char s
  end.

(** [c in s] for a one-character [c]. *)
Fixpoint contains (c : ascii) (s : string) : bool :=
  match s with
  | EmptyString => false
  | String c' s' => Ascii.eqb c' c || contains c s'
  end.

(** The characters of ASCII, U+0000..U+007F. *)
Definition is_ascii (c : ascii) : bool := between 0 127 c.

(** [s.startswith(p)] *)
Definition startswith (s p : string) : bool := String.prefix p s.

(** [s.endswith(p)] *)
Definition endswith (s p : string) : bool :=
  let n := String.length s in
  let m := String.length p in
  (m <=? n)%nat && String.eqb (String.substring (n - m) m s) p.

(** [s[1:-1]]: from position 1 up to, not including, the last position;
    empty when the string has fewer than two characters. *)
Definition slice_1_m1 (s : string) : string :=
  String.substring 1 (String.length s - 2) s.

End PyStr.

(* ================================================================= *)
(** ** [int(s)] and [float(s)] *)

Module PyNum.
Import PyStr.

(** Blanks that [int] and [float] skip at both ends of their argument:
    tab, LF, VT, FF, CR, space, U+0085 and U+00A0. *)
Definition isblank (c : ascii) : bool :=
  between 9 13 c || is_code 32 c || is_code 133 c || is_code 160 c.

Fixpoint lstrip (cs : list ascii) : list ascii :=
  match cs with
  | c :: cs' => if isblank c then lstrip cs' else cs
  | [] => []
  end.

Definition strip (cs : list ascii) : list ascii :=
  rev (lstrip (rev (lstrip cs))).

Definition digit_val (c : ascii) : Z := (Z.of_N (code c) - 48)%Z.

Definition digits_val (ds : list ascii) : Z :=
  fold_left (fun acc c => (10 * acc + digit_val c)%Z) ds 0%Z.

(** A run of decimal digits in which single underscores may separate
    digits; returns the digits.  [prev] tells whether the character before
    was a digit; the run may neither be empty nor end in an underscore. *)
Fixpoint digit_run (prev : bool) (cs : list ascii) : option (list ascii) :=
  match cs with
  | [] => if prev then Some [] else None
  | c :: cs' =>
      if isdecimal_char c then option_map (cons c) (digit_run true cs')
      else if Ascii.eqb c "_" && prev then digit_run false cs'
      else None
  end.

(** An optional sign: [true] for minus. *)
Definition split_sign (cs : list ascii) : bool * list ascii :=
  match cs with
  | c :: cs' =>
      if Ascii.eqb c "-" then (true, cs')
      else if Ascii.eqb c "+" then (false, cs')
      else (false, cs)
  | [] => (false, [])
  end.

(** [int(s)] in base 10: blanks, an optional sign, digits. *)
Definition py_int (s : string) : result Z :=
  let (neg, body) := split_sign (strip (list_ascii_of_string s)) in
  match digit_run false body with
  | Some ds => Ok (if neg then - digits_val ds else digits_val ds)%Z
  | None => Raise ValueError
  end.

(** Underscores in the argument of [float] must each stand between two
    digits; they are then dropped. *)
Fixpoint drop_underscores (prev : bool) (cs : list ascii)
  : option (list ascii) :=
  match cs with
  | [] => Some []
  | c :: cs' =>
      if Ascii.eqb c "_" then
        match cs' with
        | d :: _ =>
            if prev && isdecimal_char d then drop_underscores false cs'
            else None
        | [] => None
        end
      else option_map (cons c) (drop_underscores (isdecimal_char c) cs')
  end.

Fixpoint span (p : ascii -> bool) (cs : list ascii)
  : list ascii * list ascii :=
  match cs with
  | c :: cs' =>
      if p c then let (a, b) := span p cs' in (c :: a, b) else ([], cs)
  | [] => ([], [])
  end.

(** The exponent part: empty, or [e]/[E], an optional sign and digits. *)
Definition exponent (cs : list ascii) : option Z :=
  match cs with
  | [] => Some 0%Z
  | c :: cs' =>
      if Ascii.eqb c "e" || Ascii.eqb c "E" then
        let (neg, ds) := split_sign cs' in
        match ds with
        | [] => None
        | _ :: _ =>
            if forallb isdecimal_char ds
            then Some (if neg then - digits_val ds else digits_val ds)%Z
            else None
        end
      else None
  end.

(** The binary64 value nearest to [m * 10 ^ e] (ties to even). *)
Definition decimal_to_binary64 (neg : bool) (m e : Z) : spec_float :=
  match m with
  | Z0 => S754_zero neg
  | Zpos p =>
      if (0 <=? e)%Z
      then binary_normalize 53 1024 (if neg then - (m * 10 ^ e) else m * 10 ^ e)%Z 0 neg
      else SFdiv 53 1024 (S754_finite neg p 0)
                         (S754_finite false (Z.to_pos (10 ^ (- e))) 0)
  | Zneg _ => S754_nan
  end.

(** [float(s)]: blanks, an optional sign, then [inf], [infinity], [nan]
    (any case) or a decimal numeral with at least one digit, an optional
    point and an optional exponent. *)
Definition py_float (s : string) : result spec_float :=
  match drop_underscores false (list_ascii_of_string s) with
  | None => Raise ValueError
  | Some cs =>
      let (neg, body) := split_sign (strip cs) in
      let word := lower (string_of_list_ascii body) in
      if String.eqb word "inf" || String.eqb word "infinity"
      then Ok (S754_infinity neg)
      else if String.eqb word "nan" then Ok S754_nan
      else
        let (ip, r1) := span isdecimal_char body in
        let (fp, r2) :=
          match r1 with
          | c :: r1' =>
              if Ascii.eqb c "." then span isdecimal_char r1' else ([], r1)
          | [] => ([], [])
          end in
        match (ip ++ fp)%list, exponent r2 with
        | _ :: _, Some e =>
            Ok (decimal_to_binary64 neg (digits_val (ip ++ fp)%list)
                  (e - Z.of_nat (List.length fp)))
        | _, _ => Raise ValueError
        end
  end.

End PyNum.

(* ================================================================= *)
(** ** The two regular expressions of [_parse_path] *)

Module Re.
Import PyStr.

(** The class [\w] of a [str] pattern: alphanumeric or underscore. *)
Definition word_char (c : ascii) : bool := isalnum_char c || Ascii.eqb c "_".

(** The class [[^\]]]. *)
Definition not_rbracket (c : ascii) : bool := negb (Ascii.eqb c "]").

(** [re.split(r'\.', s)]: the pieces between the dots, empty ones kept. *)
Fixpoint split_dot (s : string) : list string :=
  match s with
  | EmptyString => [EmptyString]
  | String c s' =>
      if Ascii.eqb c "." then EmptyString :: split_dot s'
      else
        match split_dot s' with
        | p :: ps => String c p :: ps
        | [] => [String c EmptyString]
        end
  end.

(** The longest prefix of [s] in the class [p], and what follows it. *)
Fixpoint span (p : ascii -> bool) (s : string) : string * string :=
  match s with
  | String c s' =>
      if p c then let (a, b) := span p s' in (String c a, b)
      else (EmptyString, s)
  | EmptyString => (EmptyString, EmptyString)
  end.

(** One greedy [+] group followed by the literal character [stop].  No
    character of the class is the stop character, so giving characters back
    can never help and the group is the longest run. *)
Definition group_then (p : ascii -> bool) (stop : ascii) (s : string)
  : option (string * string) :=
  match span p s with
  | (String c g, String c' rest) =>
      if Ascii.eqb c' stop then Some (String c g, rest) else None
  | _ => None
  end.

(** [re.match(r"(\w+)\[(\w+)=([^\]]+)\]", part)] and its [.groups()]: the
    match is anchored at the start only, whatever follows the closing
    bracket is ignored. *)
Definition match_predicate (part : string)
  : option (string * string * string) :=
  match group_then word_char "[" part with
  | None => None
  | Some (field, r1) =>
      match group_then word_char "=" r1 with
      | None => None
      | Some (key, r2) =>
          match group_then not_rbracket "]" r2 with
          | None => None
          | Some (value_str, _) => Some (field, key, value_str)
          end
      end
  end.

End Re.

(* ================================================================= *)
(** ** Data trees, segments and generators *)

(** The leaves of a tree, which are also the values a predicate literal
    can take: [None], [bool], [int], [float], [str]. *)
Inductive scalar : Type :=
| SNone
| SBool (b : bool)
| SInt (n : Z)
| SFloat (f : spec_float)
| SStr (s : string).

(** A tree.  The induction principle that reaches the values inside the
    lists is [value_induction] below; the generated one is not wanted. *)
#[local] Unset Elimination Schemes.
Inductive value : Type :=
| VScalar (x : scalar)
| VList (items : list value)
| VDict (entries : list (string * value)).
#[local] Set Elimination Schemes.

(** The segment dicts [{'type': ..., ...}] built by [_parse_path]. *)
Inductive segment : Type :=
| Key (name : string)
| Index (n : Z)
| Wildcard
| Descendant
| Predicate (field key : string) (lit : scalar).

Record gen : Type := mkGen { yielded : list value; raised : option exn }.

Definition gen_empty : gen := mkGen [] None.
Definition gen_yield (v : value) : gen := mkGen [v] None.
Definition gen_raise (e : exn) : gen := mkGen [] (Some e).

(** Running [g1] and then [g2]; an exception in [g1] ends the whole. *)
Definition gen_seq (g1 g2 : gen) : gen :=
  match raised g1 with
  | Some _ => g1
  | None => mkGen (yielded g1 ++ yielded g2)%list (raised g2)
  end.

Section GenFor.
Context {A : Type} (body : A -> gen).

(** [for x in l: yield from body(x)] *)
Fixpoint gen_for (l : list A) : gen :=
  match l with
  | [] => gen_empty
  | x :: rest => gen_seq (body x) (gen_for rest)
  end.

End GenFor.

(** [next(g)] *)
Definition next (g : gen) : result value :=
  match yielded g, raised g with
  | v :: _, _ => Ok v
  | [], Some e => Raise e
  | [], None => Raise StopIteration
  end.

(** Lookups hand what they find to a continuation: [_traverse] goes on
    with the value found, and this way the value is visibly a part of the
    tree it was found in. *)
Section Lookup.
Context {A : Type} (found : value -> A) (missing : A).

(** The entry of a dict under a key, handed to [found]. *)
Fixpoint dict_lookup (d : list (string * value)) (k : string) : A :=
  match d with
  | [] => missing
  | (k', v) :: rest => if String.eqb k' k then found v else dict_lookup rest k
  end.

(** The item of a list at a position counted from 0. *)
Fixpoint list_lookup (l : list value) (i : nat) : A :=
  match l, i with
  | [], _ => missing
  | x :: _, O => found x
  | _ :: rest, S i' => list_lookup rest i'
  end.

End Lookup.

(** [k in d] *)
Definition dict_contains (d : list (string * value)) (k : string) : bool :=
  dict_lookup (fun _ => true) false d k.

(** [d.get(k)]: [None] when the key is absent. *)
Definition dict_get (d : list (string * value)) (k : string) : value :=
  dict_lookup (fun v => v) (VScalar SNone) d k.

(** [d.values()] *)
Definition dict_values (d : list (string * value)) : list value :=
  map snd d.

(** [l[i]] for any integer [i]: a negative index counts from the end, and
    an index outside the list is an [IndexError], passed as [missing]. *)
Definition list_getitem {A : Type} (found : value -> A) (missing : A)
    (l : list value) (i : Z) : A :=
  let len := Z.of_nat (List.length l) in
  let j := (if i <? 0 then i + len else i)%Z in
  if ((j <? 0) || (len <=? j))%Z then missing
  else list_lookup found missing l (Z.to_nat j).

(* ================================================================= *)
(** ** Equality [==] of a tree value with a literal *)

(** Two positive binary numbers [m1 * 2^e1] and [m2 * 2^e2]. *)
Definition finite_eq (m1 : positive) (e1 : Z) (m2 : positive) (e2 : Z)
  : bool :=
  let e := Z.min e1 e2 in
  (Zpos m1 * 2 ^ (e1 - e) =? Zpos m2 * 2 ^ (e2 - e))%Z.

(** [float == float]: by value; the zeros are equal, a NaN equals nothing. *)
Definition float_eq (a b : spec_float) : bool :=
  match a, b with
  | S754_zero _, S754_zero _ => true
  | S754_infinity s1, S754_infinity s2 => Bool.eqb s1 s2
  | S754_finite s1 m1 e1, S754_finite s2 m2 e2 =>
      Bool.eqb s1 s2 && finite_eq m1 e1 m2 e2
  | _, _ => false
  end.

(** [int == float]: the exact mathematical values are compared. *)
Definition int_eq_float (n : Z) (f : spec_float) : bool :=
  match f, n with
  | S754_zero _, Z0 => true
  | S754_finite s m e, Zpos p => negb s && finite_eq p 0 m e
  | S754_finite s m e, Zneg p => s && finite_eq p 0 m e
  | _, _ => false
  end.

(** [bool] is a subclass of [int]: [False] is 0 and [True] is 1. *)
Definition int_of_bool (b : bool) : Z := if b then 1%Z else 0%Z.

Definition scalar_eq (a b : scalar) : bool :=
  match a, b with
  | SNone, SNone => true
  | SStr s, SStr t => String.eqb s t
  | SBool x, SBool y => Bool.eqb x y
  | SBool x, SInt n => (int_of_bool x =? n)%Z
  | SInt n, SBool y => (n =? int_of_bool y)%Z
  | SInt n, SInt m => (n =? m)%Z
  | SBool x, SFloat f => int_eq_float (int_of_bool x) f
  | SFloat f, SBool y => int_eq_float (int_of_bool y) f
  | SInt n, SFloat f => int_eq_float n f
  | SFloat f, SInt n => int_eq_float n f
  | SFloat f, SFloat g => float_eq f g
  | _, _ => false
  end.

(** A list or a dict never equals a literal. *)
Definition py_eq (a : value) (b : scalar) : bool :=
  match a with
  | VScalar x => scalar_eq x b
  | _ => false
  end.

(* ================================================================= *)
(** ** [core.py] *)

Import PyStr PyNum.

(** [try: body except ValueError: handler] *)
Definition try_except_ValueError {A : Type} (body handler : result A)
  : result A :=
  match body with
  | Raise ValueError => handler
  | _ => body
  end.

Definition is_quoted (value_str : string) (q : ascii) : bool :=
  startswith value_str (String q EmptyString)
  && endswith value_str (String q EmptyString).

Definition _coerce_value (value_str : string) : result scalar :=
  let val_lower := lower value_str in
  if String.eqb val_lower "true" then Ok (SBool true)
  else if String.eqb val_lower "false" then Ok (SBool false)
  else if String.eqb val_lower "null" || String.eqb val_lower "none"
  then Ok SNone
  else
    try_except_ValueError
      (if contains "." value_str
       then f <- py_float value_str ;; Ok (SFloat f)
       else n <- py_int value_str ;; Ok (SInt n))
      (if is_quoted value_str dquote || is_quoted value_str squote
       then Ok (SStr (slice_1_m1 value_str))
       else Ok (SStr value_str)).

(** The body of the loop of [_parse_path]: the segment of one part. *)
Definition parse_part (part : string) : result segment :=
  match Re.match_predicate part with
  | Some (field, key, value_str) =>
      coerced_value <- _coerce_value value_str ;;
      Ok (Predicate field key coerced_value)
  | None =>
      if String.eqb part "*" then Ok Wildcard
      else if String.eqb part "**" then Ok Descendant
      else if isdigit part then n <- py_int part ;; Ok (Index n)
      else Ok (Key part)
  end.

(** The loop itself, appending to [segments]. *)
Fixpoint parse_parts (parts : list string) (segments : list segment)
  : result (list segment) :=
  match parts with
  | [] => Ok segments
  | part :: rest =>
      seg <- parse_part part ;;
      parse_parts rest (segments ++ [seg])%list
  end.

Definition _parse_path (path : string) : result (list segment) :=
  parse_parts (Re.split_dot path) [].

(** The recursion of [_traverse] either descends into the tree or stays at
    the node and drops the head segment: an outer recursion on the tree, an
    inner one on the segments.  [data[...]] raises [KeyError] or
    [IndexError] when nothing is there; [data.get(field)] is [None] then,
    which is no list, so the predicate loop does not run. *)
Fixpoint _traverse (data : value) : list segment -> gen :=
  fix at_node (segments : list segment) : gen :=
    match segments with
    | [] => gen_yield data
    | head :: tail =>
        match head with
        | Descendant =>
            gen_seq (at_node tail)
              match data with
              | VDict d =>
                  gen_for (fun entry => _traverse (snd entry) (head :: tail)) d
              | VList l =>
                  gen_for (fun item => _traverse item (head :: tail)) l
              | VScalar _ => gen_empty
              end
        | Key name =>
            match data with
            | VDict d =>
                if dict_contains d name
                then dict_lookup (fun v => _traverse v tail)
                       (gen_raise KeyError) d name
                else gen_empty
            | _ => gen_empty
            end
        | Index n =>
            match data with
            | VList l =>
                let len := Z.of_nat (List.length l) in
                if ((- len <=? n) && (n <? len))%Z
                then list_getitem (fun v => _traverse v tail)
                       (gen_raise IndexError) l n
                else gen_empty
            | _ => gen_empty
            end
        | Wildcard =>
            match data with
            | VDict d => gen_for (fun entry => _traverse (snd entry) tail) d
            | VList l => gen_for (fun item => _traverse item tail) l
            | VScalar _ => gen_empty
            end
        | Predicate field key lit =>
            match data with
            | VDict d =>
                if dict_contains d field
                then
                  dict_lookup
                    (fun list_to_filter =>
                       match list_to_filter with
                       | VList l =>
                           gen_for
                             (fun item =>
                                match item with
                                | VDict e =>
                                    if py_eq (dict_get e key) lit
                                    then _traverse item tail
                                    else gen_empty
                                | _ => gen_empty
                                end) l
                       | _ => gen_empty
                       end)
                    gen_empty d field
                else gen_empty
            | _ => gen_empty
            end
        end
    end.

Module Path.

Record t : Type := mk { path_str : string; _segments : list segment }.

Definition __init__ (path_str : string) : result t :=
  segments <- _parse_path path_str ;;
  Ok (mk path_str segments).

Definition find_all (self : t) (data : value) : gen :=
  _traverse data (_segments self).

(** The function returns [None] when the generator is exhausted at once. *)
Definition find_first (self : t) (data : value) : result value :=
  match next (find_all self data) with
  | Ok v => Ok v
  | Raise StopIteration => Ok (VScalar SNone)
  | Raise e => Raise e
  end.

End Path.

Definition find_all (data : value) (path_str : string) : result gen :=
  self <- Path.__init__ path_str ;;
  Ok (Path.find_all self data).

Definition find_first (data : value) (path_str : string) : result value :=
  self <- Path.__init__ path_str ;;
  Path.find_first self data.

(* ================================================================= *)
(** ** Vocabulary of the statements *)

(** The values a generator yields. *)
Definition matches (data : value) (segments : list segment) : list value :=
  yielded (_traverse data segments).

(** No exception ends a traversal of [data], whatever the segments. *)
Definition never_raises (data : value) : Prop :=
  forall segments, raised (_traverse data segments) = None.

(** The entry of a dict under a key, if there is one. *)
Definition dict_find (d : list (string * value)) (k : string)
  : option value :=
  dict_lookup Some None d k.

(** The item of a list at an index [-len <= i < len]. *)
Definition list_item (l : list value) (i : Z) : option value :=
  list_getitem Some None l i.

(** The nodes one level below a node, in iteration order. *)
Definition children (data : value) : list value :=
  match data with
  | VDict d => dict_values d
  | VList l => l
  | VScalar _ => []
  end.

(** Depth-first pre-order enumeration of a tree: the node, then the
    enumeration of each child in turn. *)
Fixpoint preorder (data : value) : list value :=
  data ::
  match data with
  | VDict d => flat_map (fun entry => preorder (snd entry)) d
  | VList l => flat_map preorder l
  | VScalar _ => []
  end.

(** [reaches data node]: [node] lies at some depth [>= 0] below [data]. *)
Inductive reaches : value -> value -> Prop :=
| reaches_here (data : value) : reaches data data
| reaches_below (data child node : value) :
    In child (children data) -> reaches child node -> reaches data node.

(** The test of the predicate loop on one item of the list. *)
Definition item_matches (item : value) (key : string) (lit : scalar) : bool :=
  match item with
  | VDict e => py_eq (dict_get e key) lit
  | _ => false
  end.

(** The Python type of a scalar. *)
Inductive pytype : Type := TNone | TBool | TInt | TFloat | TStr.

Definition type_of (x : scalar) : pytype :=
  match x with
  | SNone => TNone
  | SBool _ => TBool
  | SInt _ => TInt
  | SFloat _ => TFloat
  | SStr _ => TStr
  end.

(** What [==] keeps apart: the null value, the numbers, the strings. *)
Inductive kind : Type := KNull | KNumber | KString.

Definition kind_of (x : scalar) : kind :=
  match x with
  | SNone => KNull
  | SBool _ | SInt _ | SFloat _ => KNumber
  | SStr _ => KString
  end.

(** *** Literal coercion as the specification words it

    Rule 4 of the specification strips the quotes of a text "wrapped in a
    single matching pair of double or single quotes": an opening quote, the
    inner text, the same quote closing it. *)

(** [body] without its last character, when that is the quote [q]. *)
Fixpoint drop_closing (q : ascii) (body : string) : option string :=
  match body with
  | EmptyString => None
  | String c rest =>
      match rest with
      | EmptyString => if Ascii.eqb c q then Some EmptyString else None
      | String _ _ => option_map (String c) (drop_closing q rest)
      end
  end.

(** The inner text of a text wrapped in a pair of quotes [q]. *)
Definition unquote (q : ascii) (text : string) : option string :=
  match text with
  | String c body => if Ascii.eqb c q then drop_closing q body else None
  | EmptyString => None
  end.

(** Rule 3: a float when the text has a point, an integer otherwise. *)
Definition numeric_parse (text : string) : option scalar :=
  if contains "." text then
    match py_float text with
    | Ok f => Some (SFloat f)
    | Raise _ => None
    end
  else
    match py_int text with
    | Ok n => Some (SInt n)
    | Raise _ => None
    end.

(** Rules 1 to 5 in their order. *)
Definition coerce_spec (text : string) : scalar :=
  let folded := lower text in
  if String.eqb folded "true" then SBool true
  else if String.eqb folded "false" then SBool false
  else if String.eqb folded "null" || String.eqb folded "none" then SNone
  else
    match numeric_parse text with
    | Some number => number
    | None =>
        match unquote dquote text, unquote squote text with
        | Some inner, _ => SStr inner
        | None, Some inner => SStr inner
        | None, None => SStr text
        end
    end.

(** A text that is one quote character and nothing else. *)
Definition lone_quote (text : string) : bool :=
  String.eqb text (String dquote EmptyString)
  || String.eqb text (String squote EmptyString).

(** *** Further vocabulary *)

(** CPython's default limit on the number of digits [int] converts
    ([sys.int_info.default_max_str_digits]); a longer digit text is a
    [ValueError].  [py_int] has no such limit, so what is stated of the
    compiler's failures is stated for parts within it. *)
Definition max_str_digits : nat := 4300.

Definition within_digit_limit (path : string) : Prop :=
  Forall (fun part => String.length part <= max_str_digits) (Re.split_dot path).

(** The number of dots of a path. *)
Fixpoint count_dots (s : string) : nat :=
  match s with
  | EmptyString => 0
  | String c s' => (if Ascii.eqb c "." then 1 else 0) + count_dots s'
  end.

(** Segments that select at most one child. *)
Definition is_key_or_index (seg : segment) : bool :=
  match seg with
  | Key _ | Index _ => true
  | _ => false
  end.

Definition is_descendant (seg : segment) : bool :=
  match seg with
  | Descendant => true
  | _ => false
  end.

(** Looking names up one after the other in nested dicts. *)
Fixpoint get_in (data : value) (names : list string) : option value :=
  match names with
  | [] => Some data
  | name :: rest =>
      match data with
      | VDict d =>
          match dict_find d name with
          | Some v => get_in v rest
          | None => None
          end
      | _ => None
      end
  end.

(** A part written with word characters and hyphens only that is not a
    digit string: the plain names of keys. *)
Definition name_char (c : ascii) : bool := Re.word_char c || Ascii.eqb c "-".

Definition key_name (part : string) : bool :=
  all_chars name_char part && negb (isdigit part).

(** *** Sample trees *)

Module Samples.

Definition int (n : Z) : value := VScalar (SInt n).
Definition str (s : string) : value := VScalar (SStr s).

Definition nested : value := VDict [("a", VDict [("b", int 1)])].
Definition numbers : value := VDict [("a", VList [int 1; int 2; int 3])].
Definition items : value :=
  VDict [("items", VList [VDict [("id", int 1); ("v", str "x")];
                          VDict [("id", int 2); ("v", str "y")]])].
Definition twice_a : value := VDict [("a", VDict [("b", VDict [("a", int 1)])])].

End Samples.

(** A fact about one character, settled by going through all 256. *)
Ltac by_cases_on_char c :=
  destruct c as [b0 b1 b2 b3 b4 b5 b6 b7];
  destruct b0, b1, b2, b3, b4, b5, b6, b7;
  try reflexivity; try discriminate.

(* ================================================================= *)
(** * Properties *)

(** ** Trees, lookups and generators *)

Lemma value_induction (P : value -> Prop)
  (Hscalar : forall x, P (VScalar x))
  (Hlist : forall l, Forall P l -> P (VList l))
  (Hdict : forall d, Forall (fun entry => P (snd entry)) d -> P (VDict d)) :
  forall data, P data.
Proof.
  fix IH 1.
  intros [x | l | d].
  - apply Hscalar.
  - apply Hlist. induction l as [| item l IHl]; constructor; [apply IH | exact IHl].
  - apply Hdict. induction d as [| entry d IHd]; constructor; [apply IH | exact IHd].
Qed.

Lemma dict_lookup_find {A : Type} (found : value -> A) (missing : A) d k :
  dict_lookup found missing d k =
  match dict_find d k with
  | Some v => found v
  | None => missing
  end.
Proof.
  unfold dict_find.
  induction d as [| [k' v] d IHd]; simpl; [reflexivity |].
  destruct (String.eqb k' k); [reflexivity | exact IHd].
Qed.

Lemma dict_contains_find d k :
  dict_contains d k = match dict_find d k with Some _ => true | None => false end.
Proof. unfold dict_contains. apply dict_lookup_find. Qed.

Lemma dict_get_find d k :
  dict_get d k = match dict_find d k with Some v => v | None => VScalar SNone end.
Proof. unfold dict_get. apply dict_lookup_find. Qed.

Lemma dict_find_In d k v : dict_find d k = Some v -> In v (dict_values d).
Proof.
  unfold dict_find, dict_values.
  induction d as [| [k' v'] d IHd]; simpl; [discriminate |].
  destruct (String.eqb k' k).
  - intros [= ->]. now left.
  - intros H. right. now apply IHd.
Qed.

Lemma list_lookup_nth {A : Type} (found : value -> A) (missing : A) l i :
  list_lookup found missing l i =
  match nth_error l i with
  | Some v => found v
  | None => missing
  end.
Proof.
  revert i. induction l as [| x l IHl]; intros [| i]; simpl; try reflexivity.
  apply IHl.
Qed.

Lemma list_getitem_item {A : Type} (found : value -> A) (missing : A) l i :
  list_getitem found missing l i =
  match list_item l i with
  | Some v => found v
  | None => missing
  end.
Proof.
  unfold list_item, list_getitem.
  destruct ((_ <? 0) || _)%Z; [reflexivity |].
  rewrite !list_lookup_nth. now destruct (nth_error l _).
Qed.

Lemma list_item_In l i v : list_item l i = Some v -> In v l.
Proof.
  unfold list_item, list_getitem.
  destruct ((_ <? 0) || _)%Z; [discriminate |].
  rewrite list_lookup_nth.
  destruct (nth_error l _) eqn:E; [| discriminate].
  intros [= ->]. eapply nth_error_In; eauto.
Qed.

(** Inside the bounds tested by [_traverse] the item exists: it is the one
    at [i], or at [len + i] for a negative [i]. *)
Lemma list_item_in_range l i :
  (- Z.of_nat (List.length l) <= i < Z.of_nat (List.length l))%Z ->
  list_item l i =
  nth_error l (Z.to_nat (if (i <? 0)%Z then i + Z.of_nat (List.length l) else i))
  /\ exists v, list_item l i = Some v.
Proof.
  intros Hi. unfold list_item, list_getitem.
  set (len := Z.of_nat (List.length l)) in *.
  set (j := if (i <? 0)%Z then (i + len)%Z else i).
  assert (Hj : (0 <= j < len)%Z) by (subst j; destruct (Z.ltb_spec i 0); lia).
  replace ((j <? 0) || (len <=? j))%Z with false
    by (symmetry; apply orb_false_iff; split; [apply Z.ltb_ge | apply Z.leb_gt]; lia).
  rewrite list_lookup_nth.
  destruct (nth_error l (Z.to_nat j)) eqn:E.
  - split; [reflexivity | eauto].
  - apply nth_error_None in E. lia.
Qed.

Lemma gen_seq_yielded g1 g2 :
  raised g1 = None ->
  gen_seq g1 g2 = mkGen (yielded g1 ++ yielded g2)%list (raised g2).
Proof. unfold gen_seq. now intros ->. Qed.

Lemma gen_for_flat_map {A : Type} (body : A -> gen) (l : list A) :
  Forall (fun x => raised (body x) = None) l ->
  gen_for body l = mkGen (flat_map (fun x => yielded (body x)) l) None.
Proof.
  induction 1 as [| x l Hx _ IH]; simpl; [reflexivity |].
  rewrite gen_seq_yielded, IH by assumption. reflexivity.
Qed.

Lemma gen_for_ext {A : Type} (f g : A -> gen) (l : list A) :
  (forall x, f x = g x) -> gen_for f l = gen_for g l.
Proof. intros E. induction l as [| x l IH]; simpl; [reflexivity |]. now rewrite E, IH. Qed.

Lemma gen_for_map {A B : Type} (f : A -> B) (body : B -> gen) (l : list A) :
  gen_for body (map f l) = gen_for (fun x => body (f x)) l.
Proof. induction l as [| x l IH]; simpl; [reflexivity |]. now rewrite IH. Qed.

Lemma gen_for_no_raise {A : Type} (body : A -> gen) (l : list A) :
  Forall (fun x => raised (body x) = None) l -> raised (gen_for body l) = None.
Proof. intros H. now rewrite (gen_for_flat_map body l H). Qed.

(** ** The equations of [_traverse]

    One equation per branch of the source.  The lookups [data[...]] sit
    behind the tests of the source, so their error cases never show. *)

Lemma traverse_nil data : _traverse data [] = gen_yield data.
Proof. destruct data; reflexivity. Qed.

Lemma traverse_descendant data tail :
  _traverse data (Descendant :: tail) =
  gen_seq (_traverse data tail)
    (gen_for (fun child => _traverse child (Descendant :: tail)) (children data)).
Proof.
  destruct data as [x | l | d]; try reflexivity.
  simpl children. unfold dict_values. rewrite gen_for_map. reflexivity.
Qed.

Lemma traverse_key data name tail :
  _traverse data (Key name :: tail) =
  match data with
  | VDict d =>
      match dict_find d name with
      | Some v => _traverse v tail
      | None => gen_empty
      end
  | _ => gen_empty
  end.
Proof.
  destruct data as [x | l | d]; try reflexivity.
  simpl. rewrite dict_contains_find, dict_lookup_find.
  now destruct (dict_find d name).
Qed.

Lemma list_item_out_of_range l i :
  ((- Z.of_nat (List.length l) <=? i) && (i <? Z.of_nat (List.length l)))%Z = false ->
  list_item l i = None.
Proof.
  intros H. unfold list_item, list_getitem.
  set (len := Z.of_nat (List.length l)) in *.
  destruct (Z.ltb_spec i 0) as [Hneg | Hpos].
  - destruct (Z.ltb_spec (i + len) 0); [reflexivity |].
    apply andb_false_iff in H as [H | H];
      [apply Z.leb_gt in H | apply Z.ltb_ge in H]; lia.
  - destruct (Z.ltb_spec i 0); [lia |].
    destruct (Z.leb_spec len i); [reflexivity |].
    apply andb_false_iff in H as [H | H];
      [apply Z.leb_gt in H | apply Z.ltb_ge in H]; lia.
Qed.

Lemma traverse_index data n tail :
  _traverse data (Index n :: tail) =
  match data with
  | VList l =>
      match list_item l n with
      | Some v => _traverse v tail
      | None => gen_empty
      end
  | _ => gen_empty
  end.
Proof.
  destruct data as [x | l | d]; try reflexivity.
  simpl. rewrite list_getitem_item.
  destruct ((_ <=? n) && _)%Z eqn:E.
  - apply andb_true_iff in E as [E1 E2].
    apply Z.leb_le in E1. apply Z.ltb_lt in E2.
    destruct (list_item_in_range l n) as [_ [v ->]]; [lia | reflexivity].
  - now rewrite (list_item_out_of_range l n E).
Qed.

Lemma traverse_wildcard data tail :
  _traverse data (Wildcard :: tail) =
  gen_for (fun child => _traverse child tail) (children data).
Proof.
  destruct data as [x | l | d]; try reflexivity.
  simpl children. unfold dict_values. rewrite gen_for_map. reflexivity.
Qed.

Lemma traverse_predicate data field key lit tail :
  _traverse data (Predicate field key lit :: tail) =
  match data with
  | VDict d =>
      match dict_find d field with
      | Some (VList l) =>
          gen_for (fun item =>
                     if item_matches item key lit
                     then _traverse item tail else gen_empty) l
      | _ => gen_empty
      end
  | _ => gen_empty
  end.
Proof.
  destruct data as [x | l | d]; try reflexivity.
  simpl. rewrite dict_contains_find, dict_lookup_find.
  destruct (dict_find d field) as [[x | l | e] |]; try reflexivity.
  apply gen_for_ext. intros [x | l' | e]; reflexivity.
Qed.

(** ** No exception leaves [_traverse] *)

Lemma never_raises_below data :
  never_raises data /\ Forall never_raises (children data).
Proof.
  induction data as [x | l IHl | d IHd] using value_induction.
  - split; [| constructor].
    intros segments; induction segments as [| head tail IHt].
    + now rewrite traverse_nil.
    + destruct head; try reflexivity.
      rewrite traverse_descendant, gen_seq_yielded by exact IHt. reflexivity.
  - assert (Hl : Forall never_raises l)
      by (eapply Forall_impl; [| exact IHl]; now intros item [H _]).
    split; [| exact Hl].
    intros segments; induction segments as [| head tail IHt].
    + now rewrite traverse_nil.
    + destruct head as [name | n | | | field key lit]; try reflexivity.
      * rewrite traverse_index.
        destruct (list_item l n) as [v |] eqn:E; [| reflexivity].
        apply list_item_In in E. rewrite Forall_forall in Hl. now apply Hl.
      * rewrite traverse_wildcard. apply gen_for_no_raise.
        eapply Forall_impl; [| exact Hl]. intros item H. apply H.
      * rewrite traverse_descendant, gen_seq_yielded by exact IHt.
        apply gen_for_no_raise.
        eapply Forall_impl; [| exact Hl]. intros item H. apply H.
  - assert (Hd : Forall never_raises (dict_values d)).
    { unfold dict_values. apply Forall_map.
      eapply Forall_impl; [| exact IHd]. now intros entry [H _]. }
    split; [| exact Hd].
    intros segments; induction segments as [| head tail IHt].
    + now rewrite traverse_nil.
    + destruct head as [name | n | | | field key lit]; try reflexivity.
      * rewrite traverse_key.
        destruct (dict_find d name) as [v |] eqn:E; [| reflexivity].
        apply dict_find_In in E. rewrite Forall_forall in Hd. now apply Hd.
      * rewrite traverse_wildcard. apply gen_for_no_raise.
        eapply Forall_impl; [| exact Hd]. intros v H. apply H.
      * rewrite traverse_descendant, gen_seq_yielded by exact IHt.
        apply gen_for_no_raise.
        eapply Forall_impl; [| exact Hd]. intros v H. apply H.
      * rewrite traverse_predicate.
        destruct (dict_find d field) as [[x | l | e] |] eqn:E; try reflexivity.
        apply gen_for_no_raise.
        (* the items of the list lie two levels below the dict *)
        apply dict_find_In in E. unfold dict_values in E.
        apply in_map_iff in E as [entry [Hentry Hin]].
        rewrite Forall_forall in IHd. destruct (IHd entry Hin) as [_ Hitems].
        rewrite Hentry in Hitems. simpl in Hitems.
        eapply Forall_impl; [| exact Hitems]. intros item H.
        destruct (item_matches item key lit); [apply H | reflexivity].
Qed.

Lemma traverse_no_raise data segments :
  raised (_traverse data segments) = None.
Proof. apply never_raises_below. Qed.

Lemma matches_nil data : matches data [] = [data].
Proof. unfold matches. now rewrite traverse_nil. Qed.

Lemma gen_for_matches (segments : list segment) (l : list value) :
  yielded (gen_for (fun child => _traverse child segments) l) =
  flat_map (fun child => matches child segments) l.
Proof.
  rewrite gen_for_flat_map; [reflexivity |].
  apply Forall_forall. intros child _. apply traverse_no_raise.
Qed.

(** ** Descendant segments enumerate the tree in pre-order *)

Lemma flat_map_nested {A B C : Type} (f : B -> list C) (g : A -> list B) l :
  flat_map f (flat_map g l) = flat_map (fun x => flat_map f (g x)) l.
Proof.
  induction l as [| x l IH]; simpl; [reflexivity |].
  now rewrite flat_map_app, IH.
Qed.

Lemma flat_map_of_map {A B C : Type} (f : B -> list C) (g : A -> B) l :
  flat_map f (map g l) = flat_map (fun x => f (g x)) l.
Proof. induction l as [| x l IH]; simpl; [reflexivity |]. now rewrite IH. Qed.

Lemma flat_map_pointwise {A B : Type} (f g : A -> list B) l :
  Forall (fun x => f x = g x) l -> flat_map f l = flat_map g l.
Proof. induction 1 as [| x l E _ IH]; simpl; [reflexivity |]. now rewrite E, IH. Qed.

Lemma preorder_children data :
  preorder data = data :: flat_map preorder (children data).
Proof.
  destruct data as [x | l | d]; simpl; try reflexivity.
  f_equal. unfold dict_values. now rewrite flat_map_of_map.
Qed.

Lemma preorder_sound data :
  forall node, In node (preorder data) -> reaches data node.
Proof.
  induction data as [x | l IHl | d IHd] using value_induction;
    intros node; rewrite preorder_children; intros [<- | Hin];
    try apply reaches_here.
  - destruct Hin.
  - apply in_flat_map in Hin as [child [Hchild Hnode]].
    rewrite Forall_forall in IHl.
    eapply reaches_below; [exact Hchild | now apply IHl].
  - apply in_flat_map in Hin as [child [Hchild Hnode]].
    pose proof Hchild as Hentry. simpl in Hentry. unfold dict_values in Hentry.
    apply in_map_iff in Hentry as [entry [<- Hentry]].
    rewrite Forall_forall in IHd.
    eapply reaches_below; [exact Hchild | now apply IHd].
Qed.

Lemma preorder_complete data node :
  reaches data node -> In node (preorder data).
Proof.
  induction 1 as [data | data child node Hchild _ IH];
    rewrite preorder_children; [now left | right].
  apply in_flat_map. eauto.
Qed.

Lemma matches_descendant_step data tail :
  matches data (Descendant :: tail) =
  (matches data tail ++
   flat_map (fun child => matches child (Descendant :: tail)) (children data))%list.
Proof.
  unfold matches at 1.
  rewrite traverse_descendant, gen_seq_yielded by apply traverse_no_raise.
  simpl. now rewrite gen_for_matches.
Qed.

Lemma matches_descendant_preorder tail data :
  matches data (Descendant :: tail) =
  flat_map (fun node => matches node tail) (preorder data).
Proof.
  induction data as [x | l IHl | d IHd] using value_induction;
    rewrite matches_descendant_step, preorder_children; simpl; f_equal.
  - rewrite flat_map_nested. now apply flat_map_pointwise.
  - rewrite flat_map_nested. apply flat_map_pointwise.
    unfold dict_values. now apply Forall_map.
Qed.

(** C1. With a [descendant] head the traversal first runs the remaining
    segments on the current node and then descends into each child in
    iteration order with the segment list unchanged; what it yields is the
    matches of the remaining segments at every node of the depth-first
    pre-order enumeration of the tree, and that enumeration holds exactly
    the nodes at depth [>= 0] below the current node. *)
Theorem descendant_preorder (data : value) (tail : list segment) :
  _traverse data (Descendant :: tail) =
    gen_seq (_traverse data tail)
      (gen_for (fun child => _traverse child (Descendant :: tail))
         (children data))
  /\ matches data (Descendant :: tail) =
       (matches data tail ++
        flat_map (fun child => matches child (Descendant :: tail))
          (children data))%list
  /\ matches data (Descendant :: tail) =
       flat_map (fun node => matches node tail) (preorder data)
  /\ preorder data = data :: flat_map preorder (children data)
  /\ (forall node, In node (preorder data) <-> reaches data node).
Proof.
  split; [apply traverse_descendant |].
  split; [apply matches_descendant_step |].
  split; [apply matches_descendant_preorder |].
  split; [apply preorder_children |].
  intros node; split; [apply preorder_sound | apply preorder_complete].
Qed.

(** ** No match is an empty generator, never an error *)

Lemma next_no_raise (g : gen) :
  raised g = None -> next g = match yielded g with
                             | v :: _ => Ok v
                             | [] => Raise StopIteration
                             end.
Proof. unfold next. intros ->. now destruct (yielded g). Qed.

Lemma find_first_head self data :
  Path.find_first self data =
  Ok (hd (VScalar SNone) (yielded (Path.find_all self data))).
Proof.
  unfold Path.find_first.
  rewrite next_no_raise by apply traverse_no_raise.
  now destruct (yielded (Path.find_all self data)).
Qed.

Lemma traverse_key_missing data name tail :
  (forall d, data = VDict d -> dict_find d name = None) ->
  _traverse data (Key name :: tail) = gen_empty.
Proof.
  intros H. rewrite traverse_key.
  destruct data as [x | l | d]; try reflexivity.
  now rewrite (H d eq_refl).
Qed.

Lemma traverse_index_out_of_range data n tail :
  (forall l, data = VList l ->
     (n < - Z.of_nat (List.length l) \/ Z.of_nat (List.length l) <= n)%Z) ->
  _traverse data (Index n :: tail) = gen_empty.
Proof.
  intros H. rewrite traverse_index.
  destruct data as [x | l | d]; try reflexivity.
  rewrite list_item_out_of_range; [reflexivity |].
  apply andb_false_iff.
  destruct (H l eq_refl); [left; apply Z.leb_gt | right; apply Z.ltb_ge]; lia.
Qed.

Lemma gen_for_nothing {A : Type} (body : A -> gen) (l : list A) :
  Forall (fun x => body x = gen_empty) l -> gen_for body l = gen_empty.
Proof.
  induction 1 as [| x l E _ IH]; simpl; [reflexivity |].
  now rewrite E, IH.
Qed.

Lemma traverse_predicate_no_match data field key lit tail :
  (forall d l, data = VDict d -> dict_find d field = Some (VList l) ->
     Forall (fun item => item_matches item key lit = false) l) ->
  _traverse data (Predicate field key lit :: tail) = gen_empty.
Proof.
  intros H. rewrite traverse_predicate.
  destruct data as [x | l | d]; try reflexivity.
  destruct (dict_find d field) as [[x | l | e] |] eqn:E; try reflexivity.
  apply gen_for_nothing.
  eapply Forall_impl; [| exact (H d l eq_refl E)].
  now intros item ->.
Qed.

(** C7. A traversal never ends in an exception.  A [key] segment on a node
    that is no map or lacks the key, an [index] segment on a node that is
    no sequence or is too short, a [predicate] segment on a node without a
    sequence at [field] or without a matching map in it: each gives the
    empty generator, and [find_first] then returns [None]. *)
Theorem traverse_never_raises (data : value) (segments : list segment) :
  raised (_traverse data segments) = None
  /\ (forall path_str,
        Path.find_first (Path.mk path_str segments) data =
        Ok (hd (VScalar SNone) (matches data segments)))
  /\ (forall path_str,
        matches data segments = [] ->
        Path.find_first (Path.mk path_str segments) data = Ok (VScalar SNone))
  /\ (forall name,
        (forall d, data = VDict d -> dict_find d name = None) ->
        _traverse data (Key name :: segments) = gen_empty)
  /\ (forall n,
        (forall l, data = VList l ->
           (n < - Z.of_nat (List.length l) \/ Z.of_nat (List.length l) <= n)%Z) ->
        _traverse data (Index n :: segments) = gen_empty)
  /\ (forall field key lit,
        (forall d l, data = VDict d -> dict_find d field = Some (VList l) ->
           Forall (fun item => item_matches item key lit = false) l) ->
        _traverse data (Predicate field key lit :: segments) = gen_empty).
Proof.
  split; [apply traverse_no_raise |].
  split; [intros; apply find_first_head |].
  split.
  { intros path_str H. rewrite find_first_head.
    change (yielded (Path.find_all (Path.mk path_str segments) data))
      with (matches data segments).
    now rewrite H. }
  split; [intros; now apply traverse_key_missing |].
  split; [intros; now apply traverse_index_out_of_range |].
  intros; now apply traverse_predicate_no_match.
Qed.

Lemma traverse_never_raises_witness :
  _traverse (VDict [("a", VList [VScalar (SInt 1)])]) [Key "b"] = gen_empty
  /\ _traverse (VList [VScalar (SInt 1)]) [Index 1] = gen_empty
  /\ _traverse (VDict [("a", VList [VScalar (SInt 1)])])
       [Predicate "a" "id" (SInt 1)] = gen_empty
  /\ Path.find_first (Path.mk "a.5" [Key "a"; Index 5])
       (VDict [("a", VList [VScalar (SInt 1)])]) = Ok (VScalar SNone).
Proof.
  split; [| split; [| split]].
  - apply (traverse_never_raises (VDict [("a", VList [VScalar (SInt 1)])]) []).
    intros d [= <-]. reflexivity.
  - apply (traverse_never_raises (VList [VScalar (SInt 1)]) []).
    intros l [= <-]. simpl. lia.
  - apply (traverse_never_raises (VDict [("a", VList [VScalar (SInt 1)])]) []).
    intros d l [= <-] [= <-]. repeat constructor.
  - apply (traverse_never_raises (VDict [("a", VList [VScalar (SInt 1)])])
             [Key "a"; Index 5]).
    reflexivity.
Defined.

(** ** The facade *)

(** C9. The free functions compile the path and delegate to the [Path]
    object: [find_all] is [Path(p).find_all], [find_first] is
    [Path(p).find_first], and [find_first] returns the first value that
    [find_all] yields, or [None] when it yields nothing. *)
Theorem free_functions_delegate (data : value) (path_str : string) :
  find_all data path_str =
    (self <- Path.__init__ path_str ;; Ok (Path.find_all self data))
  /\ find_first data path_str =
       (self <- Path.__init__ path_str ;; Path.find_first self data)
  /\ (forall self,
        Path.find_first self data =
        Ok (hd (VScalar SNone) (yielded (Path.find_all self data))))
  /\ find_first data path_str =
       (g <- find_all data path_str ;; Ok (hd (VScalar SNone) (yielded g))).
Proof.
  split; [reflexivity |]. split; [reflexivity |].
  split; [intros; apply find_first_head |].
  unfold find_first, find_all.
  destruct (Path.__init__ path_str) as [self | e]; simpl; [| reflexivity].
  apply find_first_head.
Qed.

(** ** Predicate segments *)

Lemma gen_seq_empty_r g : gen_seq g gen_empty = g.
Proof.
  unfold gen_seq. destruct g as [ys [e |]]; simpl; [reflexivity |].
  now rewrite app_nil_r.
Qed.

Lemma matches_predicate d field key lit tail :
  matches (VDict d) (Predicate field key lit :: tail) =
  match dict_find d field with
  | Some (VList l) =>
      flat_map (fun item =>
                  if item_matches item key lit then matches item tail else []) l
  | _ => []
  end.
Proof.
  unfold matches at 1. rewrite traverse_predicate.
  destruct (dict_find d field) as [[x | l | e] |]; try reflexivity.
  rewrite gen_for_flat_map.
  - simpl. apply flat_map_ext. intros item.
    now destruct (item_matches item key lit).
  - apply Forall_forall. intros item _.
    destruct (item_matches item key lit); [apply traverse_no_raise | reflexivity].
Qed.

Lemma item_matches_absent e key lit :
  dict_find e key = None ->
  item_matches (VDict e) key lit = scalar_eq SNone lit.
Proof. intros H. simpl. now rewrite dict_get_find, H. Qed.

Lemma coerce_null value_str :
  lower value_str = "null" \/ lower value_str = "none" ->
  _coerce_value value_str = Ok SNone.
Proof. unfold _coerce_value. now intros [-> | ->]. Qed.

(** C10. A predicate whose literal is null (the value text is [null] or
    [none] in any letter case) matches a map that lacks the key: the map
    passes the test of the loop exactly as the same map with the key bound
    to [None] does, for a null literal and for every other literal, and its
    matches are among those of the segment. *)
Theorem null_predicate_matches_absent_key
    (value_str key : string) (e : list (string * value)) :
  lower value_str = "null" \/ lower value_str = "none" ->
  dict_find e key = None ->
  _coerce_value value_str = Ok SNone
  /\ item_matches (VDict e) key SNone = true
  /\ (forall lit,
        item_matches (VDict e) key lit =
        item_matches (VDict ((key, VScalar SNone) :: e)) key lit)
  /\ (forall field tail,
        _traverse (VDict [(field, VList [VDict e])])
          (Predicate field key SNone :: tail) = _traverse (VDict e) tail)
  /\ (forall d field l tail,
        dict_find d field = Some (VList l) -> In (VDict e) l ->
        incl (matches (VDict e) tail)
             (matches (VDict d) (Predicate field key SNone :: tail))).
Proof.
  intros Hnull Habsent.
  split; [now apply coerce_null |].
  split; [now rewrite item_matches_absent |].
  split.
  { intros lit. rewrite item_matches_absent by assumption.
    simpl. unfold dict_get. simpl. now rewrite String.eqb_refl. }
  split.
  { intros field tail. rewrite traverse_predicate.
    unfold dict_find. cbn [dict_lookup]. rewrite String.eqb_refl.
    cbn [gen_for]. rewrite item_matches_absent by assumption.
    apply gen_seq_empty_r. }
  intros d field l tail Hfield Hin v Hv.
  rewrite matches_predicate, Hfield. apply in_flat_map.
  exists (VDict e). split; [assumption |].
  now rewrite item_matches_absent.
Qed.

Lemma null_predicate_matches_absent_key_witness :
  _coerce_value "None" = Ok SNone
  /\ item_matches (VDict [("x", VScalar (SInt 1))]) "id" SNone = true.
Proof.
  pose proof (null_predicate_matches_absent_key "None" "id"
                [("x", VScalar (SInt 1))]
                (or_intror eq_refl) eq_refl) as H.
  split; [apply H | apply H].
Defined.

(** ** Equality in the predicate test *)

Lemma item_matches_iff item key lit :
  item_matches item key lit = true <->
  exists e, item = VDict e /\ py_eq (dict_get e key) lit = true.
Proof.
  split.
  - destruct item as [x | l | e]; simpl; try discriminate. eauto.
  - now intros [e [-> H]].
Qed.

Lemma scalar_eq_same_kind x lit :
  scalar_eq x lit = true -> kind_of x = kind_of lit.
Proof. destruct x, lit; simpl; try discriminate; reflexivity. Qed.

Lemma scalar_eq_same_type x lit :
  type_of x = type_of lit -> type_of lit <> TFloat ->
  (scalar_eq x lit = true <-> x = lit).
Proof.
  destruct x, lit; simpl; try discriminate; intros _ Hfloat.
  - tauto.
  - rewrite Bool.eqb_true_iff. split; congruence.
  - rewrite Z.eqb_eq. split; congruence.
  - now contradict Hfloat.
  - rewrite String.eqb_eq. split; congruence.
Qed.

(** C2, as the code has it.  The predicate loop keeps an item exactly when
    it is a map and [item.get(key) == literal] holds.  This equality never
    holds between values of different kinds (null, number, string), so the
    string ["2"] does not match the integer literal of [items[id=2]]; on two
    booleans, two integers, two strings or two nulls it is equality of type
    and value.  Booleans, integers and floats are all numbers and are
    compared by value across these three types. *)
Theorem predicate_uses_python_eq
    (d : list (string * value)) (field key : string) (lit : scalar)
    (tail : list segment) :
  matches (VDict d) (Predicate field key lit :: tail) =
    match dict_find d field with
    | Some (VList l) =>
        flat_map (fun item =>
                    if item_matches item key lit then matches item tail else [])
          l
    | _ => []
    end
  /\ (forall item,
        item_matches item key lit = true <->
        exists e, item = VDict e /\ py_eq (dict_get e key) lit = true)
  /\ (forall x, scalar_eq x lit = true -> kind_of x = kind_of lit)
  /\ (forall x, type_of x = type_of lit -> type_of lit <> TFloat ->
        (scalar_eq x lit = true <-> x = lit))
  /\ (forall b n, scalar_eq (SBool b) (SInt n) = (int_of_bool b =? n)%Z)
  /\ (forall b f, scalar_eq (SBool b) (SFloat f) = int_eq_float (int_of_bool b) f)
  /\ (forall n f, scalar_eq (SInt n) (SFloat f) = int_eq_float n f)
  /\ _parse_path "items[id=2]" = Ok [Predicate "items" "id" (SInt 2)]
  /\ find_all (VDict [("items", VList [VDict [("id", VScalar (SStr "2"))]])])
       "items[id=2]" = Ok gen_empty.
Proof.
  split; [apply matches_predicate |].
  split; [intros; apply item_matches_iff |].
  split; [intros x; apply scalar_eq_same_kind |].
  split; [intros x; apply scalar_eq_same_type |].
  repeat split; reflexivity.
Qed.

Lemma predicate_uses_python_eq_witness :
  (scalar_eq (SInt 2) (SInt 2) = true <-> SInt 2 = SInt 2)
  /\ kind_of (SBool true) = kind_of (SInt 1).
Proof.
  pose proof (predicate_uses_python_eq [] "items" "id" (SInt 2) [])
    as [_ [_ [_ [Htype _]]]].
  pose proof (predicate_uses_python_eq [] "items" "id" (SInt 1) [])
    as [_ [_ [Hkind _]]].
  split.
  - apply Htype; [reflexivity | discriminate].
  - apply Hkind. reflexivity.
Defined.

(** C2 as stated fails: the path [items[id=1]] compiles its value to the
    integer 1, and an item whose [id] is the boolean [True] is yielded
    although its value is of another type than the literal. *)
Lemma bool_item_matches_int_literal :
  _parse_path "items[id=1]" = Ok [Predicate "items" "id" (SInt 1)]
  /\ find_all (VDict [("items", VList [VDict [("id", VScalar (SBool true))]])])
       "items[id=1]" = Ok (gen_yield (VDict [("id", VScalar (SBool true))]))
  /\ dict_find [("id", VScalar (SBool true))] "id" <> Some (VScalar (SInt 1))
  /\ type_of (SBool true) <> type_of (SInt 1).
Proof. repeat split; try reflexivity; discriminate. Qed.

(** ** Literal coercion *)

Lemma py_int_cases s : (exists n, py_int s = Ok n) \/ py_int s = Raise ValueError.
Proof.
  unfold py_int. destruct (split_sign _) as [neg body].
  destruct (digit_run false body); eauto.
Qed.

Lemma py_float_cases s :
  (exists f, py_float s = Ok f) \/ py_float s = Raise ValueError.
Proof.
  unfold py_float.
  destruct (drop_underscores false _) as [cs |]; [| now right].
  destruct (split_sign _) as [neg body].
  destruct (_ || _); [eauto |].
  destruct (String.eqb _ "nan"); [eauto |].
  destruct (span isdecimal_char body) as [ip r1].
  destruct (match r1 with [] => _ | _ => _ end) as [fp r2].
  destruct (ip ++ fp)%list; [now right |].
  destruct (exponent r2); eauto.
Qed.

(** The numeric attempt of the code and rule 3 are the same thing. *)
Lemma numeric_attempt value_str (handler : result scalar) :
  try_except_ValueError
    (if contains "." value_str
     then f <- py_float value_str ;; Ok (SFloat f)
     else n <- py_int value_str ;; Ok (SInt n))
    handler =
  match numeric_parse value_str with
  | Some number => Ok number
  | None => handler
  end.
Proof.
  unfold numeric_parse. destruct (contains "." value_str).
  - destruct (py_float_cases value_str) as [[f ->] | ->]; reflexivity.
  - destruct (py_int_cases value_str) as [[n ->] | ->]; reflexivity.
Qed.

Lemma endswith_cons c c' rest q :
  endswith (String c (String c' rest)) (String q EmptyString) =
  endswith (String c' rest) (String q EmptyString).
Proof.
  unfold endswith. cbn [String.length Nat.leb].
  replace (S (S (String.length rest)) - 1) with (S (String.length rest)) by lia.
  replace (S (String.length rest) - 1) with (String.length rest) by lia.
  reflexivity.
Qed.

Lemma endswith_single c q :
  endswith (String c EmptyString) (String q EmptyString) = Ascii.eqb c q.
Proof. unfold endswith. simpl. now destruct (Ascii.eqb c q). Qed.

Lemma drop_closing_endswith q body :
  drop_closing q body =
  if endswith body (String q EmptyString)
  then Some (String.substring 0 (String.length body - 1) body)
  else None.
Proof.
  induction body as [| c rest IH]; [reflexivity |].
  destruct rest as [| c' rest'].
  - simpl drop_closing. rewrite endswith_single. reflexivity.
  - change (drop_closing q (String c (String c' rest')))
      with (option_map (String c) (drop_closing q (String c' rest'))).
    rewrite IH, endswith_cons.
    destruct (endswith (String c' rest') (String q EmptyString)); [| reflexivity].
    cbn [String.length option_map].
    replace (S (S (String.length rest')) - 1) with (S (String.length rest')) by lia.
    replace (S (String.length rest') - 1) with (String.length rest') by lia.
    reflexivity.
Qed.

Lemma startswith_char c body q :
  startswith (String c body) (String q EmptyString) = Ascii.eqb c q.
Proof.
  unfold startswith. simpl.
  destruct (ascii_dec q c) as [-> | Hne].
  - rewrite Ascii.eqb_refl. now destruct body.
  - symmetry. apply Ascii.eqb_neq. congruence.
Qed.

(** Rule 4 against the test of the code: they agree on every text but the
    quote character standing alone, which the code takes for a quoted empty
    text. *)
Lemma unquote_is_quoted q text :
  unquote q text =
  if is_quoted text q && negb (String.eqb text (String q EmptyString))
  then Some (slice_1_m1 text) else None.
Proof.
  destruct text as [| c body]; [reflexivity |].
  unfold unquote, is_quoted, slice_1_m1. rewrite startswith_char.
  destruct (Ascii.eqb_spec c q) as [-> | Hne]; [| reflexivity].
  rewrite drop_closing_endswith.
  destruct body as [| c' rest].
  - rewrite endswith_single, !Ascii.eqb_refl. simpl.
    now rewrite Ascii.eqb_refl.
  - rewrite endswith_cons.
    replace (String.eqb (String q (String c' rest)) (String q EmptyString))
      with false by (simpl; now rewrite Ascii.eqb_refl).
    rewrite andb_true_r. simpl andb.
    destruct (endswith (String c' rest) (String q EmptyString)); [| reflexivity].
    cbn [String.length].
    replace (S (S (String.length rest)) - 2) with (String.length rest) by lia.
    replace (S (String.length rest) - 1) with (String.length rest) by lia.
    reflexivity.
Qed.

(** The code follows rules 1 to 5 in their order on every text that is not
    a lone quote character. *)
Lemma coerce_value_follows_rules value_str :
  lone_quote value_str = false ->
  _coerce_value value_str = Ok (coerce_spec value_str).
Proof.
  unfold lone_quote. intros Hlone.
  apply orb_false_iff in Hlone as [Hd Hs].
  unfold _coerce_value, coerce_spec. cbv zeta.
  destruct (String.eqb (lower value_str) "true"); [reflexivity |].
  destruct (String.eqb (lower value_str) "false"); [reflexivity |].
  destruct (_ || _); [reflexivity |].
  rewrite numeric_attempt.
  destruct (numeric_parse value_str); [reflexivity |].
  rewrite !unquote_is_quoted, Hd, Hs. simpl negb. rewrite !andb_true_r.
  destruct (is_quoted value_str dquote); [reflexivity |].
  destruct (is_quoted value_str squote); reflexivity.
Qed.

Lemma lone_quote_cases value_str :
  lone_quote value_str = true ->
  value_str = String dquote EmptyString \/ value_str = String squote EmptyString.
Proof.
  unfold lone_quote. intros H. apply orb_true_iff in H as [H | H];
    apply String.eqb_eq in H; auto.
Qed.

Lemma coerce_value_eq value_str :
  _coerce_value value_str =
  Ok (if lone_quote value_str then SStr EmptyString else coerce_spec value_str).
Proof.
  destruct (lone_quote value_str) eqn:Hlone.
  - destruct (lone_quote_cases value_str Hlone) as [-> | ->]; reflexivity.
  - now apply coerce_value_follows_rules.
Qed.

(** C8.  On every text the code applies the rules in the order of the
    specification: boolean words, null words, the numeric parse (float with
    a point, integer without), the stripping of one pair of quotes, the
    text itself.  The one departure is a text that is a single quote
    character: the specification leaves it as it is (no pair wraps
    anything), the code returns the empty string. *)
Theorem coerce_value_rules (value_str : string) :
  _coerce_value value_str =
    Ok (if lone_quote value_str then SStr EmptyString
        else coerce_spec value_str)
  /\ coerce_spec (String dquote EmptyString) = SStr (String dquote EmptyString)
  /\ coerce_spec (String squote EmptyString) = SStr (String squote EmptyString)
  /\ _coerce_value (String dquote EmptyString) = Ok (SStr EmptyString)
  /\ _coerce_value (String squote EmptyString) = Ok (SStr EmptyString).
Proof.
  split; [apply coerce_value_eq | repeat split; reflexivity].
Qed.

(** ** The predicate pattern

    [Re.match_predicate] takes the longest run for each group.  The lemmas
    below state what it accepts without reference to any matching order:
    the part starts with a text of the language of the pattern, cut into
    its three groups; the cut is unique, so this is also what a
    backtracking matcher returns. *)

Lemma span_split p s :
  s = fst (Re.span p s) ++ snd (Re.span p s)
  /\ all_chars p (fst (Re.span p s)) = true
  /\ match snd (Re.span p s) with
     | String c _ => p c = false
     | EmptyString => True
     end.
Proof.
  induction s as [| c s IH]; simpl; [auto |].
  destruct (p c) eqn:Hc; simpl; [| auto].
  destruct (Re.span p s) as [a b]. simpl in *.
  destruct IH as [E [Ha Hb]].
  rewrite Hc, Ha. repeat split; [now rewrite <- E | exact Hb].
Qed.

Lemma span_longest p a b :
  all_chars p a = true ->
  match b with String c _ => p c = false | EmptyString => True end ->
  Re.span p (a ++ b) = (a, b).
Proof.
  intros Ha Hb. induction a as [| c a IH]; simpl.
  - destruct b as [| c b]; [reflexivity |]. simpl. now rewrite Hb.
  - simpl in Ha. apply andb_true_iff in Ha as [Hc Ha].
    now rewrite Hc, IH.
Qed.

Lemma group_then_iff p stop s g rest :
  p stop = false ->
  Re.group_then p stop s = Some (g, rest) <->
  g <> EmptyString /\ all_chars p g = true /\ s = g ++ String stop rest.
Proof.
  intros Hstop. unfold Re.group_then. split.
  - destruct (span_split p s) as [E [Ha _]].
    destruct (Re.span p s) as [a b]. simpl in *.
    destruct a as [| c a]; [discriminate |].
    destruct b as [| c' b]; [discriminate |].
    destruct (Ascii.eqb_spec c' stop) as [-> | _]; [| discriminate].
    intros [= <- <-]. repeat split; [discriminate | exact Ha | exact E].
  - intros [Hne [Hg ->]].
    rewrite span_longest by assumption.
    destruct g as [| c g]; [contradiction |].
    now rewrite Ascii.eqb_refl.
Qed.

Lemma match_predicate_iff part field key value_str :
  Re.match_predicate part = Some (field, key, value_str) <->
  exists rest,
    part = field ++ "[" ++ key ++ "=" ++ value_str ++ "]" ++ rest
    /\ field <> EmptyString /\ all_chars Re.word_char field = true
    /\ key <> EmptyString /\ all_chars Re.word_char key = true
    /\ value_str <> EmptyString
    /\ all_chars Re.not_rbracket value_str = true.
Proof.
  unfold Re.match_predicate. split.
  - destruct (Re.group_then Re.word_char "[" part) as [[f r1] |] eqn:E1;
      [| discriminate].
    destruct (Re.group_then Re.word_char "=" r1) as [[k r2] |] eqn:E2;
      [| discriminate].
    destruct (Re.group_then Re.not_rbracket "]" r2) as [[v r3] |] eqn:E3;
      [| discriminate].
    intros [= <- <- <-].
    apply group_then_iff in E1 as [? [? ->]]; [| reflexivity].
    apply group_then_iff in E2 as [? [? ->]]; [| reflexivity].
    apply group_then_iff in E3 as [? [? ->]]; [| reflexivity].
    exists r3. repeat split; assumption.
  - intros [rest [-> [Hf [Hf' [Hk [Hk' [Hv Hv']]]]]]].
    replace (Re.group_then Re.word_char "[" _)
      with (Some (field, key ++ "=" ++ value_str ++ "]" ++ rest)).
    2:{ symmetry. apply group_then_iff; [reflexivity |]. auto. }
    replace (Re.group_then Re.word_char "=" _)
      with (Some (key, value_str ++ "]" ++ rest)).
    2:{ symmetry. apply group_then_iff; [reflexivity |]. auto. }
    replace (Re.group_then Re.not_rbracket "]" _) with (Some (value_str, rest)).
    2:{ symmetry. apply group_then_iff; [reflexivity |]. auto. }
    reflexivity.
Qed.

(** ** When the compiler raises

    [_coerce_value] never raises.  [_parse_path] raises when one of its
    parts passes [isdigit] without being made of decimal digits only, that
    is, when it holds one of the three superscript digits.  With [py_int],
    which converts digit texts of any length, this is the only failure and
    a path of ASCII characters never fails; of the program this holds for
    parts within the digit limit of [int]. *)

Lemma coerce_value_total value_str : exists x, _coerce_value value_str = Ok x.
Proof. rewrite coerce_value_eq. eauto. Qed.

Lemma decimal_is_plain c :
  isdecimal_char c = true ->
  isblank c = false /\ Ascii.eqb c "-" = false /\ Ascii.eqb c "+" = false.
Proof. by_cases_on_char c; intros _; repeat split. Qed.

Lemma ascii_digit_is_decimal c :
  is_ascii c = true -> isdigit_char c = true -> isdecimal_char c = true.
Proof. by_cases_on_char c. Qed.

Lemma digit_is_plain c :
  isdigit_char c = true ->
  isblank c = false /\ Ascii.eqb c "-" = false /\ Ascii.eqb c "+" = false
  /\ Ascii.eqb c "_" = false /\ Ascii.eqb c "[" = false.
Proof. by_cases_on_char c; intros _; repeat split. Qed.

Lemma all_chars_forallb p s :
  all_chars p s = forallb p (list_ascii_of_string s).
Proof. induction s as [| c s IH]; simpl; [reflexivity |]. now rewrite IH. Qed.

Lemma lstrip_plain cs :
  match cs with c :: _ => isblank c = false | [] => True end -> lstrip cs = cs.
Proof. destruct cs as [| c cs]; simpl; [reflexivity |]. now intros ->. Qed.

Lemma strip_digits cs : forallb isdigit_char cs = true -> strip cs = cs.
Proof.
  intros H. unfold strip.
  assert (Hhead : forall l, forallb isdigit_char l = true ->
                   match l with c :: _ => isblank c = false | [] => True end).
  { intros [| c l]; simpl; [trivial |]. intros Hl.
    apply andb_true_iff in Hl as [Hc _]. now apply digit_is_plain. }
  rewrite (lstrip_plain cs) by now apply Hhead.
  rewrite lstrip_plain; [apply rev_involutive |].
  apply Hhead. rewrite forallb_forall in *. intros c Hc.
  apply H. now apply in_rev.
Qed.

Lemma split_sign_digits cs :
  forallb isdigit_char cs = true -> split_sign cs = (false, cs).
Proof.
  destruct cs as [| c cs]; simpl; [reflexivity |]. intros H.
  apply andb_true_iff in H as [Hc _].
  destruct (digit_is_plain c Hc) as [_ [-> [-> _]]]. reflexivity.
Qed.

Lemma digit_run_decimal cs : forall prev,
  forallb isdecimal_char cs = true ->
  (prev = true \/ cs <> []) -> digit_run prev cs = Some cs.
Proof.
  induction cs as [| c cs IH]; simpl; intros prev H Hne.
  - destruct Hne as [-> | Hne]; [reflexivity | contradiction].
  - apply andb_true_iff in H as [Hc Hcs].
    rewrite Hc, IH; auto.
Qed.

Lemma digit_run_chars cs : forall prev ds,
  digit_run prev cs = Some ds ->
  forallb (fun c => isdecimal_char c || Ascii.eqb c "_") cs = true.
Proof.
  induction cs as [| c cs IH]; simpl; intros prev ds H; [reflexivity |].
  destruct (isdecimal_char c); simpl in *.
  - destruct (digit_run true cs) as [ds' |] eqn:E; [| discriminate H].
    exact (IH true ds' E).
  - destruct (Ascii.eqb c "_"); simpl in *; [| discriminate H].
    destruct prev; [| discriminate H].
    exact (IH false ds H).
Qed.

Lemma decimal_is_digit cs :
  forallb isdecimal_char cs = true -> forallb isdigit_char cs = true.
Proof.
  rewrite !forallb_forall. intros H c Hc. unfold isdigit_char.
  now rewrite (H c Hc).
Qed.

(** [int] on a text that passes [isdigit]. *)
Lemma py_int_isdigit part :
  isdigit part = true ->
  py_int part =
  if all_chars isdecimal_char part
  then Ok (digits_val (list_ascii_of_string part))
  else Raise ValueError.
Proof.
  intros Hdigit. unfold py_int.
  assert (Hall : forallb isdigit_char (list_ascii_of_string part) = true).
  { rewrite <- all_chars_forallb. destruct part; [discriminate | exact Hdigit]. }
  rewrite strip_digits, split_sign_digits by assumption.
  rewrite all_chars_forallb.
  destruct (forallb isdecimal_char (list_ascii_of_string part)) eqn:Hdec.
  - rewrite digit_run_decimal; [reflexivity | assumption |].
    right. destruct part; [discriminate | simpl; discriminate].
  - destruct (digit_run false (list_ascii_of_string part)) as [ds |] eqn:E;
      [| reflexivity].
    exfalso. apply digit_run_chars in E.
    rewrite <- not_true_iff_false in Hdec. apply Hdec.
    rewrite forallb_forall in *. intros c Hc.
    specialize (E c Hc). specialize (Hall c Hc).
    destruct (digit_is_plain c Hall) as [_ [_ [_ [Hus _]]]].
    rewrite Hus in E. now rewrite orb_false_r in E.
Qed.

Lemma all_chars_app p a b :
  all_chars p (a ++ b) = all_chars p a && all_chars p b.
Proof.
  induction a as [| c a IH]; simpl; [reflexivity |].
  now rewrite IH, andb_assoc.
Qed.

Lemma contains_app c a b : contains c (a ++ b) = contains c a || contains c b.
Proof.
  induction a as [| c' a IH]; simpl; [reflexivity |].
  now rewrite IH, orb_assoc.
Qed.

(** A part that passes [isdigit] has no bracket: it is no predicate. *)
Lemma isdigit_no_predicate part :
  isdigit part = true -> Re.match_predicate part = None.
Proof.
  intros Hdigit.
  destruct (Re.match_predicate part) as [[[field key] value_str] |] eqn:E;
    [| reflexivity].
  exfalso. apply match_predicate_iff in E as [rest [-> _]].
  assert (H : all_chars isdigit_char
                (field ++ "[" ++ key ++ "=" ++ value_str ++ "]" ++ rest) = true)
    by (destruct (field ++ _); [discriminate | exact Hdigit]).
  rewrite all_chars_app in H. apply andb_true_iff in H as [_ H].
  simpl in H. discriminate.
Qed.

Lemma isdigit_no_star part :
  isdigit part = true ->
  String.eqb part "*" = false /\ String.eqb part "**" = false.
Proof.
  destruct part as [| c part]; [discriminate |]. simpl.
  intros H. apply andb_true_iff in H as [Hc _].
  revert Hc. by_cases_on_char c; intros _; split; reflexivity.
Qed.

(** The segment of one part: the only failure is [int] on a part that
    [isdigit] lets through. *)
Lemma parse_part_raises part e :
  parse_part part = Raise e <->
  e = ValueError /\ isdigit part = true /\ all_chars isdecimal_char part = false.
Proof.
  unfold parse_part. split.
  - destruct (Re.match_predicate part) as [[[field key] value_str] |].
    + destruct (coerce_value_total value_str) as [x ->]. discriminate.
    + destruct (String.eqb part "*"); [discriminate |].
      destruct (String.eqb part "**"); [discriminate |].
      destruct (isdigit part) eqn:Hdigit; [| discriminate].
      rewrite py_int_isdigit by assumption.
      destruct (all_chars isdecimal_char part); [discriminate |].
      intros [= <-]. auto.
  - intros [-> [Hdigit Hdec]].
    rewrite isdigit_no_predicate by assumption.
    destruct (isdigit_no_star part Hdigit) as [-> ->].
    now rewrite Hdigit, py_int_isdigit, Hdec.
Qed.

Lemma parse_part_cases part :
  (exists seg, parse_part part = Ok seg) \/ parse_part part = Raise ValueError.
Proof.
  destruct (parse_part part) as [seg | e] eqn:E; [eauto |].
  apply parse_part_raises in E as [-> _]. now right.
Qed.

(** The loop: the segments of the parts in order, up to the first part
    that raises. *)
Lemma parse_parts_ok parts : forall acc,
  Forall (fun part => exists seg, parse_part part = Ok seg) parts ->
  exists segments,
    parse_parts parts acc = Ok (acc ++ segments)%list
    /\ Forall2 (fun part seg => parse_part part = Ok seg) parts segments.
Proof.
  induction parts as [| part parts IH]; intros acc H; simpl.
  - exists []. rewrite app_nil_r. auto.
  - inversion H as [| ? ? [seg Hseg] Hrest]; subst.
    rewrite Hseg. simpl.
    destruct (IH (acc ++ [seg])%list Hrest) as [segments [E HF]].
    exists (seg :: segments). rewrite E, <- app_assoc. auto.
Qed.

Lemma parse_parts_inv parts : forall acc segments,
  parse_parts parts acc = Ok segments ->
  exists tl,
    segments = (acc ++ tl)%list
    /\ Forall2 (fun part seg => parse_part part = Ok seg) parts tl.
Proof.
  induction parts as [| part parts IH]; intros acc segments; simpl.
  - intros [= <-]. exists []. rewrite app_nil_r. auto.
  - destruct (parse_part part) as [seg | e] eqn:E; simpl; [| discriminate].
    intros H. apply IH in H as [tl [-> HF]].
    exists (seg :: tl). rewrite <- app_assoc. auto.
Qed.

Lemma parse_parts_raises parts : forall acc e,
  parse_parts parts acc = Raise e ->
  Exists (fun part => parse_part part = Raise e) parts.
Proof.
  induction parts as [| part parts IH]; intros acc e; simpl; [discriminate |].
  destruct (parse_part part) as [seg | e'] eqn:E; simpl.
  - intros H. right. eapply IH; eauto.
  - intros [= ->]. now left.
Qed.

Lemma parse_path_raises path :
  (exists e, _parse_path path = Raise e) <->
  Exists (fun part => isdigit part = true
                      /\ all_chars isdecimal_char part = false)
    (Re.split_dot path).
Proof.
  unfold _parse_path. split.
  - intros [e H]. apply parse_parts_raises in H.
    eapply Exists_impl; [| exact H].
    intros part Hpart. now apply parse_part_raises in Hpart.
  - intros H.
    destruct (parse_parts (Re.split_dot path) []) as [segments | e] eqn:E;
      [| eauto].
    exfalso. apply parse_parts_inv in E as [tl [_ HF]].
    apply Exists_exists in H as [part [Hin [Hdigit Hdec]]].
    assert (Hraise : parse_part part = Raise ValueError)
      by (apply parse_part_raises; auto).
    clear - HF Hin Hraise.
    induction HF as [| p seg ps segs Hp _ IH]; [destruct Hin |].
    destruct Hin as [-> | Hin]; [congruence | auto].
Qed.

Lemma split_dot_all_chars p s :
  all_chars p s = true ->
  Forall (fun part => all_chars p part = true) (Re.split_dot s).
Proof.
  induction s as [| c s IH]; simpl; intros H; [repeat constructor |].
  apply andb_true_iff in H as [Hc Hs]. specialize (IH Hs).
  destruct (Ascii.eqb c "."); [constructor; [reflexivity | exact IH] |].
  destruct (Re.split_dot s) as [| part parts].
  - repeat constructor. simpl. now rewrite Hc.
  - inversion IH; subst. constructor; [simpl; now rewrite Hc | assumption].
Qed.

Lemma ascii_isdigit_decimal part :
  all_chars is_ascii part = true -> isdigit part = true ->
  all_chars isdecimal_char part = true.
Proof.
  intros Hascii Hdigit.
  assert (H : all_chars isdigit_char part = true)
    by (destruct part; [discriminate | exact Hdigit]).
  clear Hdigit. induction part as [| c part IH]; [reflexivity |].
  simpl in *. apply andb_true_iff in Hascii as [Hc Hascii].
  apply andb_true_iff in H as [Hd H].
  now rewrite (ascii_digit_is_decimal c Hc Hd), IH.
Qed.

(** On ASCII input the compiler always returns a segment list. *)
Lemma parse_path_ascii path :
  all_chars is_ascii path = true -> exists segments, _parse_path path = Ok segments.
Proof.
  intros Hascii.
  destruct (_parse_path path) as [segments | e] eqn:E; [eauto |].
  exfalso.
  assert (H : exists e, _parse_path path = Raise e) by eauto.
  apply parse_path_raises in H.
  apply Exists_exists in H as [part [Hin [Hdigit Hdec]]].
  pose proof (split_dot_all_chars is_ascii path Hascii) as Hparts.
  rewrite Forall_forall in Hparts.
  rewrite (ascii_isdigit_decimal part (Hparts part Hin) Hdigit) in Hdec.
  discriminate.
Qed.

(** C6 fails on the code: [isdigit] accepts the superscript two (U+00B2),
    [int] does not, and the [ValueError] leaves [_parse_path] and the
    constructor of [Path].  [_coerce_value] always returns.  On a path
    whose parts are within the digit limit of [int], the compiler raises
    exactly when a part passes [isdigit] without being all decimal digits,
    so never when the path is made of ASCII characters. *)
Theorem superscript_digit_raises :
  isdigit (String "178"%char EmptyString) = true
  /\ py_int (String "178"%char EmptyString) = Raise ValueError
  /\ _parse_path (String "178"%char EmptyString) = Raise ValueError
  /\ Path.__init__ (String "178"%char EmptyString) = Raise ValueError
  /\ find_all (VScalar SNone) (String "178"%char EmptyString) = Raise ValueError
  /\ (forall value_str, exists x, _coerce_value value_str = Ok x)
  /\ (forall path,
        within_digit_limit path ->
        ((exists e, _parse_path path = Raise e) <->
         Exists (fun part => isdigit part = true
                             /\ all_chars isdecimal_char part = false)
           (Re.split_dot path)))
  /\ (forall path,
        within_digit_limit path ->
        all_chars is_ascii path = true ->
        exists segments, _parse_path path = Ok segments).
Proof.
  do 5 (split; [reflexivity |]).
  split; [apply coerce_value_total |].
  split; [intros path _; apply parse_path_raises |].
  intros path _. apply parse_path_ascii.
Qed.

Lemma superscript_digit_raises_witness :
  exists segments, _parse_path "a.12.b[c=d]" = Ok segments.
Proof.
  pose proof superscript_digit_raises as [_ [_ [_ [_ [_ [_ [_ H]]]]]]].
  apply H.
  - unfold within_digit_limit, max_str_digits.
    repeat (apply Forall_cons; [simpl; lia |]). apply Forall_nil.
  - reflexivity.
Defined.

(** ** No path compiles to a float literal

    The parts of a path hold no dot, so the value text of a predicate holds
    none, and [_coerce_value] only calls [float] on a text with a dot. *)

Lemma split_dot_no_dots s :
  Forall (fun part => contains "." part = false) (Re.split_dot s).
Proof.
  induction s as [| c s IH]; simpl; [repeat constructor |].
  destruct (Ascii.eqb c ".") eqn:Hc; [constructor; [reflexivity | exact IH] |].
  destruct (Re.split_dot s) as [| part parts].
  - repeat constructor. simpl. now rewrite Hc.
  - inversion IH; subst. constructor; [simpl; now rewrite Hc | assumption].
Qed.

Lemma coerce_value_no_dot value_str x :
  contains "." value_str = false -> _coerce_value value_str = Ok x ->
  type_of x <> TFloat.
Proof.
  intros Hdot. unfold _coerce_value. cbv zeta. rewrite Hdot.
  destruct (String.eqb _ "true"); [intros [= <-]; discriminate |].
  destruct (String.eqb _ "false"); [intros [= <-]; discriminate |].
  destruct (_ || _); [intros [= <-]; discriminate |].
  destruct (py_int_cases value_str) as [[n ->] | ->]; simpl.
  - intros [= <-]; discriminate.
  - destruct (_ || _); intros [= <-]; discriminate.
Qed.

Lemma parse_part_no_float part field key lit :
  contains "." part = false ->
  parse_part part = Ok (Predicate field key lit) -> type_of lit <> TFloat.
Proof.
  intros Hdot. unfold parse_part.
  destruct (Re.match_predicate part) as [[[f k] value_str] |] eqn:E.
  - apply match_predicate_iff in E as [rest [-> _]].
    rewrite !contains_app in Hdot.
    repeat (apply orb_false_iff in Hdot as [? Hdot]).
    destruct (_coerce_value value_str) as [x |] eqn:Hx; simpl; [| discriminate].
    intros [= _ _ <-]. eapply coerce_value_no_dot; [| exact Hx]. assumption.
  - destruct (String.eqb part "*"); [discriminate |].
    destruct (String.eqb part "**"); [discriminate |].
    destruct (isdigit part); [| discriminate].
    destruct (py_int part); discriminate.
Qed.

Lemma compiled_literal_never_float path segments field key lit :
  _parse_path path = Ok segments ->
  In (Predicate field key lit) segments -> type_of lit <> TFloat.
Proof.
  unfold _parse_path. intros H Hin.
  apply parse_parts_inv in H as [tl [-> HF]]. simpl in Hin.
  pose proof (split_dot_no_dots path) as Hdots.
  induction HF as [| part seg parts segs Hpart _ IH]; [destruct Hin |].
  inversion Hdots; subst.
  destruct Hin as [-> | Hin]; [| auto].
  eapply parse_part_no_float; eauto.
Qed.

(** C4 fails on the code: the path is cut at every dot before any bracket
    is looked at, so [items[v=1.5]] gives two parts, neither of which is a
    predicate, and the result is two [key] segments.  No part of any path
    holds a dot, and no compiled predicate holds a float literal, although
    [_coerce_value] would produce one from [1.5]. *)
Theorem dot_in_predicate_splits :
  Re.split_dot "items[v=1.5]" = ["items[v=1"; "5]"]
  /\ _parse_path "items[v=1.5]" = Ok [Key "items[v=1"; Key "5]"]
  /\ _coerce_value "1.5" = Ok (SFloat (S754_finite false 6755399441055744 (-52)))
  /\ find_all (VDict [("items",
                       VList [VDict [("v", VScalar (SFloat
                         (S754_finite false 6755399441055744 (-52))))]])])
       "items[v=1.5]" = Ok gen_empty
  /\ (forall path,
        Forall (fun part => contains "." part = false) (Re.split_dot path))
  /\ (forall path segments field key lit,
        _parse_path path = Ok segments ->
        In (Predicate field key lit) segments -> type_of lit <> TFloat).
Proof.
  do 4 (split; [reflexivity |]).
  split; [apply split_dot_no_dots | apply compiled_literal_never_float].
Qed.

Lemma dot_in_predicate_splits_witness : type_of (SInt 1) <> TFloat.
Proof.
  pose proof dot_in_predicate_splits as [_ [_ [_ [_ [_ H]]]]].
  apply (H "items[v=1]" [Predicate "items" "v" (SInt 1)] "items" "v" (SInt 1)).
  - reflexivity.
  - now left.
Defined.

(** ** The empty path and the minus sign *)

(** C3, as the code has it.  The empty segment list yields the node itself
    and nothing else.  The empty path string does not compile to it: it has
    one part, the empty string, which becomes a [key] segment; [find_all]
    with the empty path therefore yields the entry under the empty key of a
    map that has one, and nothing otherwise. *)
Theorem empty_path_is_empty_key (data : value) :
  _traverse data [] = gen_yield data
  /\ _parse_path "" = Ok [Key ""]
  /\ find_all data "" =
       Ok match data with
          | VDict d =>
              match dict_find d "" with
              | Some v => gen_yield v
              | None => gen_empty
              end
          | _ => gen_empty
          end.
Proof.
  split; [apply traverse_nil |]. split; [reflexivity |].
  unfold find_all. simpl. unfold Path.find_all. simpl Path._segments.
  rewrite traverse_key.
  destruct data as [x | l | d]; try reflexivity.
  destruct (dict_find d "") as [v |]; [| reflexivity].
  now rewrite traverse_nil.
Qed.

(** C3 as stated fails: on the integer [1] the empty path yields nothing,
    not the integer itself. *)
Lemma empty_path_not_identity :
  find_all (VScalar (SInt 1)) "" = Ok gen_empty
  /\ find_all (VScalar (SInt 1)) "" <> Ok (gen_yield (VScalar (SInt 1))).
Proof. split; [reflexivity | discriminate]. Qed.

Lemma digit_is_no_dot c : isdigit_char c = true -> Ascii.eqb c "." = false.
Proof. by_cases_on_char c. Qed.

Lemma digits_have_no_dot ds :
  all_chars isdigit_char ds = true -> contains "." ds = false.
Proof.
  induction ds as [| c ds IH]; simpl; [reflexivity |].
  intros H. apply andb_true_iff in H as [Hc Hds].
  now rewrite (digit_is_no_dot c Hc), IH.
Qed.

Lemma split_dot_no_dot s : contains "." s = false -> Re.split_dot s = [s].
Proof.
  induction s as [| c s IH]; simpl; [reflexivity |].
  intros H. apply orb_false_iff in H as [Hc Hs].
  now rewrite Hc, IH.
Qed.

Lemma parse_minus_token rest :
  contains "." rest = false ->
  _parse_path (String "-" rest) = Ok [Key (String "-" rest)].
Proof.
  intros H. unfold _parse_path.
  rewrite split_dot_no_dot by (simpl; exact H).
  reflexivity.
Qed.

Lemma traverse_index_in_range l n tail :
  (- Z.of_nat (List.length l) <= n < Z.of_nat (List.length l))%Z ->
  exists v,
    nth_error l
      (Z.to_nat (if (n <? 0)%Z then n + Z.of_nat (List.length l) else n))
    = Some v
    /\ _traverse (VList l) (Index n :: tail) = _traverse v tail.
Proof.
  intros Hn. rewrite traverse_index.
  destruct (list_item_in_range l n Hn) as [E [v Hv]].
  exists v. split; [now rewrite <- E | now rewrite Hv].
Qed.

(** C5. A token made of a minus sign and digits is not an [index] segment:
    it compiles to the [key] segment of that very text, and a [key] segment
    never matches a sequence, so [a.-1] finds nothing in [{"a": [1,2,3]}].
    The engine itself does serve a negative index [n] with
    [-len <= n < len]: it continues with the item at [len + n]. *)
Theorem minus_token_is_key (digits : string) :
  all_chars isdigit_char digits = true ->
  parse_part (String "-" digits) = Ok (Key (String "-" digits))
  /\ _parse_path (String "-" digits) = Ok [Key (String "-" digits)]
  /\ (forall l tail,
        _traverse (VList l) (Key (String "-" digits) :: tail) = gen_empty)
  /\ find_all (VDict [("a", VList [VScalar (SInt 1); VScalar (SInt 2);
                                   VScalar (SInt 3)])]) "a.-1" = Ok gen_empty
  /\ (forall l n tail,
        (- Z.of_nat (List.length l) <= n < Z.of_nat (List.length l))%Z ->
        exists v,
          nth_error l
            (Z.to_nat (if (n <? 0)%Z then n + Z.of_nat (List.length l) else n))
          = Some v
          /\ _traverse (VList l) (Index n :: tail) = _traverse v tail).
Proof.
  intros Hdigits.
  split; [reflexivity |].
  split; [apply parse_minus_token; now apply digits_have_no_dot |].
  split; [reflexivity |]. split; [reflexivity |].
  apply traverse_index_in_range.
Qed.

Lemma minus_token_is_key_witness :
  _parse_path "-1" = Ok [Key "-1"]
  /\ _traverse (VList [VScalar (SInt 1); VScalar (SInt 2); VScalar (SInt 3)])
       [Key "-1"] = gen_empty
  /\ exists v,
       nth_error [VScalar (SInt 1); VScalar (SInt 2); VScalar (SInt 3)] 2
       = Some v
       /\ _traverse (VList [VScalar (SInt 1); VScalar (SInt 2); VScalar (SInt 3)])
            [Index (-1)] = _traverse v [].
Proof.
  pose proof (minus_token_is_key "1" eq_refl) as [_ [Hparse [Hkey [_ Hindex]]]].
  split; [exact Hparse |]. split; [apply Hkey |].
  apply (Hindex [VScalar (SInt 1); VScalar (SInt 2); VScalar (SInt 3)] (-1)%Z []).
  simpl. lia.
Defined.

(* ================================================================= *)
(** * Further properties of the engine *)

Lemma traverse_eta data segments :
  _traverse data segments = mkGen (matches data segments) None.
Proof.
  unfold matches. pose proof (traverse_no_raise data segments) as H.
  destruct (_traverse data segments) as [ys r]. simpl in *. now subst.
Qed.

Lemma flat_map_single {A : Type} (l : list A) :
  flat_map (fun x => [x]) l = l.
Proof. induction l as [| x l IH]; simpl; [reflexivity |]. now rewrite IH. Qed.

Lemma matches_key data name tail :
  matches data (Key name :: tail) =
  match data with
  | VDict d =>
      match dict_find d name with
      | Some v => matches v tail
      | None => []
      end
  | _ => []
  end.
Proof.
  unfold matches. rewrite traverse_key.
  destruct data as [x | l | d]; try reflexivity.
  now destruct (dict_find d name).
Qed.

Lemma matches_index data n tail :
  matches data (Index n :: tail) =
  match data with
  | VList l =>
      match list_item l n with
      | Some v => matches v tail
      | None => []
      end
  | _ => []
  end.
Proof.
  unfold matches. rewrite traverse_index.
  destruct data as [x | l | d]; try reflexivity.
  now destruct (list_item l n).
Qed.

Lemma matches_wildcard data tail :
  matches data (Wildcard :: tail) =
  flat_map (fun child => matches child tail) (children data).
Proof. unfold matches at 1. rewrite traverse_wildcard. apply gen_for_matches. Qed.

Lemma matches_predicate_any data field key lit tail :
  matches data (Predicate field key lit :: tail) =
  match data with
  | VDict d =>
      match dict_find d field with
      | Some (VList l) =>
          flat_map (fun item =>
                      if item_matches item key lit then matches item tail else [])
            l
      | _ => []
      end
  | _ => []
  end.
Proof.
  destruct data as [x | l | d]; try reflexivity. apply matches_predicate.
Qed.

(** The head segment selects nodes, the tail goes on from each of them. *)
Lemma matches_cons head tail data :
  matches data (head :: tail) =
  flat_map (fun node => matches node tail) (matches data [head]).
Proof.
  destruct head as [name | n | | | field key lit].
  - rewrite !matches_key. destruct data as [x | l | d]; try reflexivity.
    destruct (dict_find d name) as [v |]; [| reflexivity].
    rewrite matches_nil. simpl. now rewrite app_nil_r.
  - rewrite !matches_index. destruct data as [x | l | d]; try reflexivity.
    destruct (list_item l n) as [v |]; [| reflexivity].
    rewrite matches_nil. simpl. now rewrite app_nil_r.
  - rewrite !matches_wildcard.
    rewrite (flat_map_ext _ (fun child => [child]) matches_nil).
    now rewrite flat_map_single.
  - rewrite !matches_descendant_preorder.
    rewrite (flat_map_ext _ (fun node => [node]) matches_nil).
    now rewrite flat_map_single.
  - rewrite !matches_predicate_any. destruct data as [x | l | d]; try reflexivity.
    destruct (dict_find d field) as [[x | l | e] |]; try reflexivity.
    rewrite flat_map_nested. apply flat_map_ext. intros item.
    destruct (item_matches item key lit); [| reflexivity].
    rewrite matches_nil. simpl. now rewrite app_nil_r.
Qed.

(** X1. Segment lists compose: the matches of [s1 ++ s2] are the matches
    of [s2] at every match of [s1], in the order [s1] yields them. *)
Theorem matches_app (s1 s2 : list segment) (data : value) :
  matches data (s1 ++ s2) =
  flat_map (fun node => matches node s2) (matches data s1).
Proof.
  revert data. induction s1 as [| head s1 IH]; intros data.
  - rewrite matches_nil. simpl. now rewrite app_nil_r.
  - simpl app. rewrite (matches_cons head (s1 ++ s2)), (matches_cons head s1).
    rewrite flat_map_nested. apply flat_map_ext. intros node. apply IH.
Qed.

Lemma reaches_trans a b c : reaches a b -> reaches b c -> reaches a c.
Proof.
  induction 1 as [| a child b Hchild _ IH]; [auto |].
  intros Hbc. eapply reaches_below; eauto.
Qed.

Lemma reaches_child data child : In child (children data) -> reaches data child.
Proof. intros H. eapply reaches_below; [exact H | apply reaches_here]. Qed.

Lemma matches_one_reaches head data node :
  In node (matches data [head]) -> reaches data node.
Proof.
  destruct head as [name | n | | | field key lit].
  - rewrite matches_key. destruct data as [x | l | d]; try contradiction.
    destruct (dict_find d name) as [v |] eqn:E; [| contradiction].
    rewrite matches_nil. intros [<- | []].
    apply reaches_child. exact (dict_find_In _ _ _ E).
  - rewrite matches_index. destruct data as [x | l | d]; try contradiction.
    destruct (list_item l n) as [v |] eqn:E; [| contradiction].
    rewrite matches_nil. intros [<- | []].
    apply reaches_child. now apply list_item_In in E.
  - rewrite matches_wildcard.
    rewrite (flat_map_ext _ (fun child => [child]) matches_nil), flat_map_single.
    apply reaches_child.
  - rewrite matches_descendant_preorder.
    rewrite (flat_map_ext _ (fun n => [n]) matches_nil), flat_map_single.
    apply preorder_sound.
  - rewrite matches_predicate_any. destruct data as [x | l | d]; try contradiction.
    destruct (dict_find d field) as [[x | l | e] |] eqn:E; try contradiction.
    intros H. apply in_flat_map in H as [item [Hitem H]].
    destruct (item_matches item key lit); [| contradiction].
    rewrite matches_nil in H. destruct H as [<- | []].
    eapply reaches_below; [exact (dict_find_In _ _ _ E) |].
    now apply reaches_child.
Qed.

(** X2. Whatever a traversal yields is a node of the tree it was given:
    the root or a value at some depth below it. *)
Theorem matches_are_nodes (segments : list segment) (data node : value) :
  In node (matches data segments) -> reaches data node.
Proof.
  revert data. induction segments as [| head tail IH]; intros data.
  - rewrite matches_nil. intros [<- | []]. apply reaches_here.
  - rewrite matches_cons. intros H.
    apply in_flat_map in H as [mid [Hmid H]].
    eapply reaches_trans; [eapply matches_one_reaches; exact Hmid | now apply IH].
Qed.

Lemma matches_are_nodes_witness :
  reaches Samples.nested (Samples.int 1).
Proof.
  apply (matches_are_nodes [Key "a"; Key "b"]). now left.
Defined.

(** X3. A path of [key] and [index] segments only yields at most one
    value. *)
Theorem key_index_at_most_one (segments : list segment) (data : value) :
  forallb is_key_or_index segments = true ->
  (List.length (matches data segments) <= 1)%nat.
Proof.
  revert data. induction segments as [| head tail IH]; intros data H.
  - now rewrite matches_nil.
  - simpl in H. apply andb_true_iff in H as [Hhead Htail].
    destruct head as [name | n | | | field key lit]; try discriminate.
    + rewrite matches_key. destruct data as [x | l | d]; simpl; try lia.
      destruct (dict_find d name); [now apply IH | simpl; lia].
    + rewrite matches_index. destruct data as [x | l | d]; simpl; try lia.
      destruct (list_item l n); [now apply IH | simpl; lia].
Qed.

Lemma key_index_at_most_one_witness :
  (List.length (matches Samples.numbers [Key "a"; Index 1]) <= 1)%nat.
Proof. apply key_index_at_most_one. reflexivity. Defined.

(** X4. On a scalar root a path matches only when it is made of
    [descendant] segments alone, and then it yields the scalar once. *)
Theorem matches_scalar (x : scalar) (segments : list segment) :
  matches (VScalar x) segments =
  if forallb is_descendant segments then [VScalar x] else [].
Proof.
  induction segments as [| head tail IH]; [apply matches_nil |].
  destruct head; try reflexivity.
  rewrite matches_descendant_step, IH. simpl. now rewrite app_nil_r.
Qed.

(** X5. A negative index counts from the end: for [-len <= n < 0] the
    segments [index n] and [index (len + n)] continue with the same item. *)
Theorem negative_index_wraps (l : list value) (n : Z) (tail : list segment) :
  (- Z.of_nat (List.length l) <= n < 0)%Z ->
  _traverse (VList l) (Index n :: tail) =
  _traverse (VList l) (Index (n + Z.of_nat (List.length l)) :: tail).
Proof.
  intros Hn. rewrite !traverse_index.
  destruct (list_item_in_range l n) as [E1 _]; [lia |].
  destruct (list_item_in_range l (n + Z.of_nat (List.length l))) as [E2 _]; [lia |].
  rewrite E1, E2.
  destruct (Z.ltb_spec n 0); [| lia].
  destruct (Z.ltb_spec (n + Z.of_nat (List.length l)) 0); [lia | reflexivity].
Qed.

Lemma negative_index_wraps_witness :
  _traverse (VList [Samples.int 1; Samples.int 2]) [Index (-1)] =
  _traverse (VList [Samples.int 1; Samples.int 2]) [Index 1].
Proof.
  apply (negative_index_wraps [Samples.int 1; Samples.int 2] (-1) []).
  simpl. lia.
Defined.

(** X6. [find_first] returns [None] in two cases that it does not tell
    apart: nothing matches, or the first match is the value [None]. *)
Theorem find_first_none_iff (self : Path.t) (data : value) :
  Path.find_first self data = Ok (VScalar SNone) <->
  matches data (Path._segments self) = []
  \/ exists rest, matches data (Path._segments self) = VScalar SNone :: rest.
Proof.
  rewrite find_first_head.
  change (yielded (Path.find_all self data))
    with (matches data (Path._segments self)).
  destruct (matches data (Path._segments self)) as [| v rest]; simpl.
  - split; auto.
  - split.
    + intros [= ->]. right. eauto.
    + intros [H | [rest' [= -> _]]]; [discriminate | reflexivity].
Qed.

(* ================================================================= *)
(** * Further properties of the compiler *)

Lemma split_dot_nonempty s : Re.split_dot s <> [].
Proof.
  destruct s as [| c s]; simpl; [discriminate |].
  destruct (Ascii.eqb c "."); [discriminate |].
  destruct (Re.split_dot s); discriminate.
Qed.

Lemma split_dot_app p q :
  Re.split_dot (p ++ String "." q) = (Re.split_dot p ++ Re.split_dot q)%list.
Proof.
  induction p as [| c p IH]; [reflexivity |].
  simpl. rewrite IH.
  destruct (Ascii.eqb c "."); [reflexivity |].
  pose proof (split_dot_nonempty p) as Hne.
  destruct (Re.split_dot p) as [| part parts]; [contradiction | reflexivity].
Qed.

Lemma parse_parts_acc parts : forall acc,
  parse_parts parts acc =
  (segments <- parse_parts parts [] ;; Ok (acc ++ segments)%list).
Proof.
  induction parts as [| part parts IH]; intros acc; simpl.
  - now rewrite app_nil_r.
  - destruct (parse_part part) as [seg | e]; simpl; [| reflexivity].
    rewrite (IH (acc ++ [seg])%list), (IH [seg]).
    destruct (parse_parts parts []); simpl; [| reflexivity].
    now rewrite <- app_assoc.
Qed.

Lemma parse_parts_app ps1 ps2 : forall acc,
  parse_parts (ps1 ++ ps2) acc =
  (s1 <- parse_parts ps1 acc ;; parse_parts ps2 s1).
Proof.
  induction ps1 as [| part ps1 IH]; intros acc; simpl; [reflexivity |].
  destruct (parse_part part) as [seg | e]; simpl; [apply IH | reflexivity].
Qed.

Lemma parse_path_join p q :
  _parse_path (p ++ "." ++ q) =
  (s1 <- _parse_path p ;; s2 <- _parse_path q ;; Ok (s1 ++ s2)%list).
Proof.
  unfold _parse_path.
  change (p ++ "." ++ q) with (p ++ String "." q).
  rewrite split_dot_app, parse_parts_app.
  destruct (parse_parts (Re.split_dot p) []) as [s1 | e]; simpl; [| reflexivity].
  apply parse_parts_acc.
Qed.

(** X7. Joining two paths with a dot composes them: the segments of
    [p.q] are those of [p] followed by those of [q] (the first error, if
    any, is raised), and [find_all] with [p.q] yields the matches of [q] at
    every match of [p], in order. *)
Theorem path_join (p q : string) (data : value) :
  _parse_path (p ++ "." ++ q) =
    (s1 <- _parse_path p ;; s2 <- _parse_path q ;; Ok (s1 ++ s2)%list)
  /\ find_all data (p ++ "." ++ q) =
       (s1 <- _parse_path p ;;
        s2 <- _parse_path q ;;
        Ok (mkGen (flat_map (fun node => matches node s2) (matches data s1))
              None)).
Proof.
  split; [apply parse_path_join |].
  unfold find_all, Path.__init__. rewrite parse_path_join.
  destruct (_parse_path p) as [s1 | e]; simpl; [| reflexivity].
  destruct (_parse_path q) as [s2 | e]; simpl; [| reflexivity].
  unfold Path.find_all. simpl.
  now rewrite traverse_eta, matches_app.
Qed.

Lemma concat_split_dot s : String.concat "." (Re.split_dot s) = s.
Proof.
  induction s as [| c s IH]; [reflexivity |].
  simpl Re.split_dot.
  pose proof (split_dot_nonempty s) as Hne.
  destruct (Re.split_dot s) as [| part parts]; [contradiction |].
  destruct (Ascii.eqb_spec c ".") as [-> | _].
  - simpl. simpl in IH. now rewrite IH.
  - destruct parts as [| part' parts]; simpl in *; now rewrite IH.
Qed.

Lemma split_dot_length s : List.length (Re.split_dot s) = S (count_dots s).
Proof.
  induction s as [| c s IH]; [reflexivity |].
  simpl. destruct (Ascii.eqb c "."); simpl; [now rewrite IH |].
  pose proof (split_dot_nonempty s) as Hne.
  destruct (Re.split_dot s) as [| part parts]; [contradiction |].
  simpl in *. exact IH.
Qed.

(** X8. The compiler makes one segment per dot-separated part: a path
    that compiles has one segment more than it has dots, so never none;
    and the parts joined with dots are the path again. *)
Theorem one_segment_per_part (path : string) :
  String.concat "." (Re.split_dot path) = path
  /\ (forall segments,
        _parse_path path = Ok segments ->
        List.length segments = S (count_dots path)).
Proof.
  split; [apply concat_split_dot |].
  unfold _parse_path. intros segments H.
  apply parse_parts_inv in H as [tl [-> HF]]. simpl.
  rewrite <- split_dot_length. symmetry. eapply Forall2_length; eauto.
Qed.

Lemma one_segment_per_part_witness :
  List.length [Key "a"; Wildcard; Index 3] = S (count_dots "a.*.3").
Proof. apply (one_segment_per_part "a.*.3"). reflexivity. Defined.

Lemma digit_val_nonneg c : isdecimal_char c = true -> (0 <= digit_val c)%Z.
Proof. by_cases_on_char c; intros _; vm_compute; discriminate. Qed.

Lemma fold_digits_nonneg ds : forall acc,
  (0 <= acc)%Z -> forallb isdecimal_char ds = true ->
  (0 <= fold_left (fun acc c => (10 * acc + digit_val c)%Z) ds acc)%Z.
Proof.
  induction ds as [| c ds IH]; cbn [fold_left forallb]; intros acc Hacc H;
    [exact Hacc |].
  apply andb_true_iff in H as [Hc Hds]. apply IH; [| exact Hds].
  pose proof (digit_val_nonneg c Hc). cbv beta. lia.
Qed.

Lemma digits_val_nonneg ds :
  forallb isdecimal_char ds = true -> (0 <= digits_val ds)%Z.
Proof. apply fold_digits_nonneg. lia. Qed.

Lemma parse_part_index part n :
  parse_part part = Ok (Index n) ->
  isdigit part = true /\ all_chars isdecimal_char part = true
  /\ n = digits_val (list_ascii_of_string part).
Proof.
  unfold parse_part.
  destruct (Re.match_predicate part) as [[[field key] value_str] |].
  - destruct (_coerce_value value_str); discriminate.
  - destruct (String.eqb part "*"); [discriminate |].
    destruct (String.eqb part "**"); [discriminate |].
    destruct (isdigit part) eqn:Hdigit; [| discriminate].
    rewrite py_int_isdigit by assumption.
    destruct (all_chars isdecimal_char part); [| discriminate].
    intros [= <-]. auto.
Qed.

(** X9. The compiler never produces a negative index: an [index] segment
    comes from a part of decimal digits and holds its value, which is
    [>= 0]. *)
Theorem compiled_index_nonnegative
    (path : string) (segments : list segment) (n : Z) :
  _parse_path path = Ok segments -> In (Index n) segments -> (0 <= n)%Z.
Proof.
  unfold _parse_path. intros H Hin.
  apply parse_parts_inv in H as [tl [-> HF]]. simpl in Hin.
  induction HF as [| part seg parts segs Hpart _ IH]; [destruct Hin |].
  destruct Hin as [-> | Hin]; [| auto].
  apply parse_part_index in Hpart as [_ [Hdec ->]].
  apply digits_val_nonneg. now rewrite <- all_chars_forallb.
Qed.

Lemma compiled_index_nonnegative_witness : (0 <= 7)%Z.
Proof.
  apply (compiled_index_nonnegative "a.007" [Key "a"; Index 7] 7).
  - reflexivity.
  - right. now left.
Defined.

Lemma lstrip_snoc c l :
  isblank c = false -> exists l', lstrip (l ++ [c]) = (l' ++ [c])%list.
Proof.
  intros Hc. induction l as [| a l IH]; simpl.
  - exists []. now rewrite Hc.
  - destruct (isblank a); [exact IH | now exists (a :: l)].
Qed.

Lemma strip_head c cs :
  isblank c = false -> exists cs', strip (c :: cs) = c :: cs'.
Proof.
  intros Hc. unfold strip. cbn [lstrip]. rewrite Hc. cbn [rev].
  destruct (lstrip_snoc c (rev cs) Hc) as [l' ->].
  rewrite rev_app_distr. simpl. eauto.
Qed.

(** [int] and [float] reject a text that opens with a quote. *)
Lemma py_int_quote q s :
  q = dquote \/ q = squote -> py_int (String q s) = Raise ValueError.
Proof.
  intros Hq. unfold py_int. cbn [list_ascii_of_string].
  destruct (strip_head q (list_ascii_of_string s)) as [cs' ->];
    [destruct Hq as [-> | ->]; reflexivity |].
  destruct Hq as [-> | ->]; reflexivity.
Qed.

Lemma py_float_quote q s :
  q = dquote \/ q = squote -> py_float (String q s) = Raise ValueError.
Proof.
  intros Hq. unfold py_float. cbn [list_ascii_of_string drop_underscores].
  replace (Ascii.eqb q "_") with false by (destruct Hq as [-> | ->]; reflexivity).
  destruct (drop_underscores (isdecimal_char q) (list_ascii_of_string s))
    as [cs |]; cbn [option_map]; [| reflexivity].
  destruct (strip_head q cs) as [cs' ->];
    [destruct Hq as [-> | ->]; reflexivity |].
  destruct Hq as [-> | ->]; reflexivity.
Qed.

Lemma drop_closing_snoc q inner :
  drop_closing q (inner ++ String q EmptyString) = Some inner.
Proof.
  induction inner as [| c inner IH]; simpl.
  - now rewrite Ascii.eqb_refl.
  - destruct (inner ++ String q EmptyString) eqn:E.
    + destruct inner; discriminate.
    + now rewrite IH.
Qed.

(** X10. Quotes force a string: a text wrapped in a pair of double or of
    single quotes coerces to the text between them, whatever that text
    looks like (a number, a boolean word, the empty text). *)
Theorem quoted_value_is_string (q : ascii) (inner : string) :
  q = dquote \/ q = squote ->
  _coerce_value (String q (inner ++ String q EmptyString)) = Ok (SStr inner).
Proof.
  intros Hq.
  rewrite coerce_value_follows_rules.
  2:{ unfold lone_quote.
      destruct Hq as [-> | ->]; simpl; now destruct inner. }
  set (text := String q (inner ++ String q EmptyString)).
  assert (Hword : forall w,
             w = "true" \/ w = "false" \/ w = "null" \/ w = "none" ->
             String.eqb (lower text) w = false).
  { intros w [-> | [-> | [-> | ->]]]; destruct Hq as [-> | ->]; reflexivity. }
  assert (Hnum : numeric_parse text = None).
  { unfold numeric_parse, text.
    rewrite py_int_quote, py_float_quote by assumption.
    now destruct (contains "." _). }
  assert (Hinner : unquote q text = Some inner).
  { unfold unquote, text. now rewrite Ascii.eqb_refl, drop_closing_snoc. }
  unfold coerce_spec. cbv zeta. rewrite !Hword by auto. simpl orb.
  rewrite Hnum.
  destruct Hq as [-> | ->].
  - now rewrite Hinner.
  - rewrite Hinner. reflexivity.
Qed.

Lemma quoted_value_is_string_witness :
  _coerce_value "'12'" = Ok (SStr "12").
Proof. apply (quoted_value_is_string squote "12"). now right. Defined.

Lemma numeric_parse_type text x :
  numeric_parse text = Some x -> type_of x = TInt \/ type_of x = TFloat.
Proof.
  unfold numeric_parse. destruct (contains "." text).
  - destruct (py_float text); [intros [= <-]; now right | discriminate].
  - destruct (py_int text); [intros [= <-]; now left | discriminate].
Qed.

Lemma coerce_spec_cases text :
  (lower text = "true" /\ coerce_spec text = SBool true)
  \/ (lower text = "false" /\ coerce_spec text = SBool false)
  \/ ((lower text = "null" \/ lower text = "none") /\ coerce_spec text = SNone)
  \/ (lower text <> "true" /\ lower text <> "false" /\ lower text <> "null"
      /\ lower text <> "none"
      /\ (type_of (coerce_spec text) = TInt
          \/ type_of (coerce_spec text) = TFloat
          \/ type_of (coerce_spec text) = TStr)).
Proof.
  unfold coerce_spec. cbv zeta.
  destruct (String.eqb_spec (lower text) "true") as [E | N1]; [auto |].
  destruct (String.eqb_spec (lower text) "false") as [E | N2]; [auto |].
  destruct (String.eqb_spec (lower text) "null") as [E | N3]; [simpl; auto 6 |].
  destruct (String.eqb_spec (lower text) "none") as [E | N4]; [simpl; auto 6 |].
  simpl. do 3 right. repeat (split; [assumption |]).
  destruct (numeric_parse text) as [x |] eqn:E.
  - destruct (numeric_parse_type text x E); auto.
  - destruct (unquote dquote text); [auto |].
    destruct (unquote squote text); auto.
Qed.

(** X12. The words decide the booleans and the null and nothing else does:
    a text coerces to [True] exactly when it spells [true] in some letter
    case, to [False] exactly when it spells [false], and to [None] exactly
    when it spells [null] or [none]. *)
Theorem coerce_keywords (value_str : string) :
  (_coerce_value value_str = Ok (SBool true) <-> lower value_str = "true")
  /\ (_coerce_value value_str = Ok (SBool false) <-> lower value_str = "false")
  /\ (_coerce_value value_str = Ok SNone <->
      lower value_str = "null" \/ lower value_str = "none").
Proof.
  rewrite coerce_value_eq.
  destruct (lone_quote value_str) eqn:Hlone.
  - apply lone_quote_cases in Hlone as [-> | ->];
      repeat split; try discriminate; intros H; try discriminate H;
      destruct H; discriminate.
  - destruct (coerce_spec_cases value_str)
      as [[E ->] | [[E ->] | [[E ->] | [N1 [N2 [N3 [N4 T]]]]]]].
    + rewrite E. repeat split; try discriminate; auto;
        intros [H | H]; discriminate H.
    + rewrite E. repeat split; try discriminate; auto;
        intros [H | H]; discriminate H.
    + repeat split; auto; try discriminate;
        intros H; destruct E as [E | E]; rewrite E in H; discriminate H.
    + repeat split; try (intros H; contradiction);
        try (intros [H | H]; contradiction);
        intros [= H]; rewrite H in T; destruct T as [T | [T | T]]; discriminate T.
Qed.

Lemma key_name_no_dot part : key_name part = true -> contains "." part = false.
Proof.
  unfold key_name. intros H. apply andb_true_iff in H as [H _].
  induction part as [| c part IH]; [reflexivity |].
  simpl in *. apply andb_true_iff in H as [Hc H].
  rewrite IH by assumption.
  revert Hc. by_cases_on_char c.
Qed.

Lemma key_name_parse part : key_name part = true -> parse_part part = Ok (Key part).
Proof.
  unfold key_name. intros H. apply andb_true_iff in H as [Hchars Hdigit].
  apply negb_true_iff in Hdigit.
  unfold parse_part.
  destruct (Re.match_predicate part) as [[[field key] value_str] |] eqn:E.
  - exfalso. apply match_predicate_iff in E as [rest [-> _]].
    rewrite all_chars_app in Hchars. apply andb_true_iff in Hchars as [_ H].
    simpl in H. discriminate.
  - rewrite Hdigit.
    destruct (String.eqb_spec part "*") as [-> | _]; [discriminate |].
    destruct (String.eqb_spec part "**") as [-> | _]; [discriminate |].
    reflexivity.
Qed.

Lemma split_dot_concat names :
  names <> [] -> Forall (fun part => contains "." part = false) names ->
  Re.split_dot (String.concat "." names) = names.
Proof.
  induction names as [| a names IH]; [contradiction |]. intros _ H.
  inversion H as [| ? ? Ha Hnames]; subst.
  destruct names as [| b names].
  - simpl. now apply split_dot_no_dot.
  - change (String.concat "." (a :: b :: names))
      with (a ++ String "." (String.concat "." (b :: names))).
    rewrite split_dot_app, split_dot_no_dot by assumption.
    rewrite IH; [reflexivity | discriminate | assumption].
Qed.

Lemma parse_parts_keys names : forall acc,
  Forall (fun part => key_name part = true) names ->
  parse_parts names acc = Ok (acc ++ map Key names)%list.
Proof.
  induction names as [| a names IH]; intros acc H; simpl.
  - now rewrite app_nil_r.
  - inversion H; subst. rewrite key_name_parse by assumption. simpl.
    rewrite IH by assumption. now rewrite <- app_assoc.
Qed.

Lemma matches_keys names : forall data,
  matches data (map Key names) =
  match get_in data names with
  | Some v => [v]
  | None => []
  end.
Proof.
  induction names as [| a names IH]; intros data; [apply matches_nil |].
  simpl map. rewrite matches_key. simpl.
  destruct data as [x | l | d]; try reflexivity.
  destruct (dict_find d a); [apply IH | reflexivity].
Qed.

(** X11. A path of plain names joined with dots is a nested lookup: it
    compiles to the [key] segments of the names, [find_all] yields the value
    found by looking the names up one after the other, or nothing when a
    name is missing or a value on the way is no map, and [find_first]
    returns that value or [None]. *)
Theorem key_path_is_nested_lookup (names : list string) (data : value) :
  names <> [] ->
  Forall (fun part => key_name part = true) names ->
  _parse_path (String.concat "." names) = Ok (map Key names)
  /\ find_all data (String.concat "." names) =
       Ok (mkGen match get_in data names with
                 | Some v => [v]
                 | None => []
                 end None)
  /\ find_first data (String.concat "." names) =
       Ok match get_in data names with
          | Some v => v
          | None => VScalar SNone
          end.
Proof.
  intros Hne Hnames.
  assert (Hparse : _parse_path (String.concat "." names) = Ok (map Key names)).
  { unfold _parse_path. rewrite split_dot_concat; [| assumption |].
    - now apply parse_parts_keys.
    - eapply Forall_impl; [| exact Hnames]. apply key_name_no_dot. }
  split; [exact Hparse |].
  unfold find_first, find_all, Path.__init__. rewrite Hparse. simpl.
  rewrite find_first_head. unfold Path.find_all. simpl.
  rewrite traverse_eta, matches_keys. simpl.
  split; [reflexivity |]. now destruct (get_in data names).
Qed.

Lemma key_path_is_nested_lookup_witness :
  find_first Samples.nested "a.b" = Ok (Samples.int 1).
Proof.
  apply (key_path_is_nested_lookup ["a"; "b"] Samples.nested).
  - discriminate.
  - repeat constructor.
Defined.

(** X13. What a part compiles to: a wildcard exactly when the part is
    [*], a descendant exactly when it is [**] (a star inside a longer part
    is no wildcard), and a [key] segment always carries the whole part as
    its name. *)
Theorem parse_part_kinds (part : string) :
  (parse_part part = Ok Wildcard <-> part = "*")
  /\ (parse_part part = Ok Descendant <-> part = "**")
  /\ (forall name, parse_part part = Ok (Key name) -> name = part).
Proof.
  unfold parse_part.
  destruct (Re.match_predicate part) as [[[field key] value_str] |] eqn:E.
  - destruct (_coerce_value value_str) as [x | e]; simpl;
      (split; [| split]);
      try (split; [discriminate | intros ->; discriminate E]);
      intros name H; discriminate H.
  - destruct (String.eqb_spec part "*") as [-> | N1].
    { repeat split; try discriminate; auto. }
    destruct (String.eqb_spec part "**") as [-> | N2].
    { repeat split; try discriminate; auto. }
    destruct (isdigit part).
    + destruct (py_int part); simpl;
        (split; [| split]);
        try (split; [discriminate | intros H; contradiction]);
        intros name H; discriminate H.
    + (split; [| split]);
        try (split; [discriminate | intros H; contradiction]).
      now intros name [= <-].
Qed.

(** X14. The predicate pattern is matched at the start of a part only:
    whatever follows the closing bracket is dropped, and the part compiles
    to the predicate of its field, key and coerced value. *)
Theorem predicate_ignores_trailing_text (field key value_str rest : string) :
  field <> EmptyString -> all_chars Re.word_char field = true ->
  key <> EmptyString -> all_chars Re.word_char key = true ->
  value_str <> EmptyString -> all_chars Re.not_rbracket value_str = true ->
  parse_part (field ++ "[" ++ key ++ "=" ++ value_str ++ "]" ++ rest) =
  (lit <- _coerce_value value_str ;; Ok (Predicate field key lit)).
Proof.
  intros Hf Hf' Hk Hk' Hv Hv'. unfold parse_part.
  replace (Re.match_predicate _) with (Some (field, key, value_str)).
  - reflexivity.
  - symmetry. apply match_predicate_iff. exists rest. auto 10.
Qed.

Lemma predicate_ignores_trailing_text_witness :
  parse_part "items[id=2]junk" = Ok (Predicate "items" "id" (SInt 2)).
Proof.
  apply (predicate_ignores_trailing_text "items" "id" "2" "junk");
    (discriminate || reflexivity).
Defined.

(* ================================================================= *)
(** * Examples

    The documented uses of the library, evaluated on the model. *)

Module Examples.
Import Samples.

Example key_traversal : find_first nested "a.b" = Ok (int 1).
Proof. reflexivity. Qed.

Example wildcard_fan_out :
  find_all numbers "a.*" = Ok (mkGen [int 1; int 2; int 3] None).
Proof. reflexivity. Qed.

Example index_from_zero : find_first numbers "a.0" = Ok (int 1).
Proof. reflexivity. Qed.

Example index_past_the_end : find_all numbers "a.3" = Ok gen_empty.
Proof. reflexivity. Qed.

Example negative_index_in_the_engine :
  _traverse numbers [Key "a"; Index (-1)] = gen_yield (int 3)
  /\ _traverse numbers [Key "a"; Index (-3)] = gen_yield (int 1)
  /\ _traverse numbers [Key "a"; Index (-4)] = gen_empty.
Proof. repeat split; reflexivity. Qed.

Example predicate_filter : find_first items "items[id=2].v" = Ok (str "y").
Proof. reflexivity. Qed.

Example descendant_shallowest_first :
  find_all twice_a "**.a" =
  Ok (mkGen [VDict [("b", VDict [("a", int 1)])]; int 1] None).
Proof. reflexivity. Qed.

Example no_match_is_none : find_first nested "a.c" = Ok (VScalar SNone).
Proof. reflexivity. Qed.

Example compile_all_kinds :
  _parse_path "a.*.**.12.xs[k='v w'].-1" =
  Ok [Key "a"; Wildcard; Descendant; Index 12;
      Predicate "xs" "k" (SStr "v w"); Key "-1"].
Proof. reflexivity. Qed.

Example coerce_words :
  _coerce_value "TRUE" = Ok (SBool true)
  /\ _coerce_value "False" = Ok (SBool false)
  /\ _coerce_value "NoNe" = Ok SNone
  /\ _coerce_value " true" = Ok (SStr " true").
Proof. repeat split; reflexivity. Qed.

Example coerce_numbers :
  _coerce_value "-12" = Ok (SInt (-12))
  /\ _coerce_value " 1_000 " = Ok (SInt 1000)
  /\ _coerce_value "0.1" = Ok (SFloat (S754_finite false 7205759403792794 (-56)))
  /\ _coerce_value "-.5e1" = Ok (SFloat (S754_finite true 5629499534213120 (-50)))
  /\ _coerce_value "1e5" = Ok (SStr "1e5")
  /\ _coerce_value "1.2.3" = Ok (SStr "1.2.3").
Proof. repeat split; reflexivity. Qed.

Example coerce_quotes :
  _coerce_value "'a b'" = Ok (SStr "a b")
  /\ _coerce_value "'12'" = Ok (SStr "12")
  /\ _coerce_value "'ab" = Ok (SStr "'ab").
Proof. repeat split; reflexivity. Qed.

Example equality_across_numbers :
  py_eq (VScalar (SBool true)) (SInt 1) = true
  /\ py_eq (int 1) (SFloat (S754_finite false 4503599627370496 (-52))) = true
  /\ py_eq (str "1") (SInt 1) = false
  /\ py_eq (VScalar SNone) (SInt 0) = false
  /\ py_eq (VScalar (SFloat S754_nan)) (SFloat S754_nan) = false
  /\ py_eq (VList []) (SStr "") = false.
Proof. repeat split; reflexivity. Qed.

End Examples.
